(** * Blog listing application: filtering, pagination, category aggregation,
      selection state and fetch handling.

    Shallow embedding of [src/components/App.tsx], [src/components/PostList.tsx],
    [src/components/PostDetail.tsx] and [src/types/index.ts].

    React state is a record; every [setX] call is a record update; an event
    handler is a function on the record.  The asynchronous bodies
    ([fetchPosts], [fetchPost]) are written in a small state-and-exception
    monad so that [try]/[catch] keeps the shape it has in the source. *)

From Stdlib Require Import ZArith Lia Ascii String OrdersEx.
From stdpp Require Import base list strings sorting.

Local Open Scope string_scope.
Local Open Scope list_scope.

(** ** Data model ([src/types/index.ts]) *)

Module Author.
Record t := mk { name : string; avatar : string }.
End Author.

Module Category.
Record t := mk { id : string; name : string }.
End Category.

Module Post.
Record t := mk {
  id : string;
  title : string;
  publishDate : string;
  author : Author.t;
  summary : string;
  categories : list Category.t
}.
End Post.

(** The object literal stored in [categoryMap] (App.tsx, lines 94-99):
    [{ id, name, ids, count }]. *)
Module CategoryWithCount.
Record t := mk {
  id : string;
  name : string;
  ids : list string;
  count : nat
}.
End CategoryWithCount.

Module ApiResponse.
Record t := mk { posts : list Post.t }.
End ApiResponse.

(** ** The JavaScript built-ins the code calls *)

(** [Array.prototype.includes] on an array of strings. *)
Definition includes (l : list string) (x : string) : bool :=
  existsb (String.eqb x) l.

(** [Array.prototype.some]. *)
Definition some {A} (f : A -> bool) (l : list A) : bool := existsb f l.

(** [Array.prototype.slice(0, end)] for a non-negative [end]. *)
Definition slice0 {A} (l : list A) (end_ : nat) : list A := take end_ l.

(** [Array.prototype.join(sep)] on an array of strings. *)
Fixpoint join (sep : string) (l : list string) : string :=
  match l with
  | [] => ""
  | [x] => x
  | x :: rest => x ++ sep ++ join sep rest
  end.

(** [String.prototype.split(sep)] for a one-character separator; [cur] is the
    piece being read.  The separator used is the comma, one byte in UTF-8 and
    never part of another character's encoding. *)
Fixpoint split_from (sep : ascii) (cur : string) (s : string) : list string :=
  match s with
  | EmptyString => [cur]
  | String c rest =>
      if Ascii.eqb c sep then cur :: split_from sep "" rest
      else split_from sep (cur ++ String c EmptyString) rest
  end.

Definition split (sep : ascii) (s : string) : list string := split_from sep "" s.

(** [Array.prototype.sort(cmp)]: a stable sort; [cmp a b <= 0] keeps [a]
    before [b].  Written as a stable insertion sort. *)
Fixpoint sort_insert {A} (cmp : A -> A -> Z) (x : A) (l : list A) : list A :=
  match l with
  | [] => [x]
  | y :: rest =>
      if (cmp x y <=? 0)%Z then x :: y :: rest
      else y :: sort_insert cmp x rest
  end.

Definition sort {A} (cmp : A -> A -> Z) (l : list A) : list A :=
  foldr (sort_insert cmp) [] l.

(** [Map]: keys in insertion order; [set] on a new key appends, and the
    value objects are mutated in place through [get]. *)
Module JsMap.
Definition t (V : Type) := list (string * V).

Definition empty {V} : t V := [].

Definition has {V} (m : t V) (k : string) : bool :=
  existsb (fun kv => String.eqb (fst kv) k) m.

(** [f] applied to the object that [get] returns for [k]: the code
    mutates that object in place. *)
Fixpoint update {V} (m : t V) (k : string) (f : V -> V) : t V :=
  match m with
  | [] => []
  | (k', v) :: rest =>
      if String.eqb k' k then (k', f v) :: rest
      else (k', v) :: update rest k f
  end.

Definition set {V} (m : t V) (k : string) (v : V) : t V :=
  if has m k then update m k (fun _ => v) else m ++ [(k, v)].

Definition values {V} (m : t V) : list V := snd <$> m.
End JsMap.

(** ** State and exceptions *)

Inductive Exn := NetworkError | SyntaxError.

Inductive Result (A : Type) :=
  | Returned (a : A)
  | Thrown (e : Exn).
Arguments Returned {A} a.
Arguments Thrown {A} e.

(** The component's state together with what the outside can observe: the
    requests issued and the lines written to the console. *)
Record World (S : Type) := mkWorld {
  state : S;
  requests : list string;
  console : list string
}.
Arguments mkWorld {S}.
Arguments state {S}.
Arguments requests {S}.
Arguments console {S}.

Definition M (S A : Type) : Type := World S -> Result A * World S.

Global Instance M_ret {S} : MRet (M S) :=
  fun A (a : A) w => (Returned a, w).

Global Instance M_bind {S} : MBind (M S) :=
  fun A B (k : A -> M S B) (m : M S A) w =>
    match m w with
    | (Returned a, w') => k a w'
    | (Thrown e, w') => (Thrown e, w')
    end.

Definition throw {S A} (e : Exn) : M S A := fun w => (Thrown e, w).

Definition try_catch {S A} (body : M S A) (handler : Exn -> M S A) : M S A :=
  fun w =>
    match body w with
    | (Returned a, w') => (Returned a, w')
    | (Thrown e, w') => handler e w'
    end.

Definition modify {S} (f : S -> S) : M S unit :=
  fun w => (Returned tt, mkWorld (f (state w)) (requests w) (console w)).

Definition console_error {S} (msg : string) : M S unit :=
  fun w => (Returned tt, mkWorld (state w) (requests w) (console w ++ [msg])).

(** What the endpoint does with the one request it receives. *)
Inductive FetchFailure := NetworkFailure | ParseFailure.

Inductive FetchOutcome :=
  | Fails (f : FetchFailure)
  | Succeeds (data : ApiResponse.t).

(** A response whose body parses to [Some data] or does not parse. *)
Record Response := mkResponse { body : option ApiResponse.t }.

(** [fetch(url)]: records the request; rejects on a network failure. *)
Definition fetch {S} (server : FetchOutcome) (url : string) : M S Response :=
  fun w =>
    let w' := mkWorld (state w) (requests w ++ [url]) (console w) in
    match server with
    | Fails NetworkFailure => (Thrown NetworkError, w')
    | Fails ParseFailure => (Returned (mkResponse None), w')
    | Succeeds data => (Returned (mkResponse (Some data)), w')
    end.

(** [response.json()]: rejects when the body is not valid JSON. *)
Definition json {S} (response : Response) : M S ApiResponse.t :=
  match body response with
  | Some data => mret data
  | None => throw SyntaxError
  end.

(** ** The App component ([src/components/App.tsx]) *)

Record AppState := mkApp {
  allPosts : list Post.t;
  displayedPosts : list Post.t;
  categories : list CategoryWithCount.t;
  selectedCategories : list string;
  loading : bool;
  currentPage : nat;
  (** the [categories] entry of the URL query string, [None] when absent *)
  searchParams : option string
}.

Definition POSTS_PER_PAGE : nat := 6.

Definition setAllPosts (v : list Post.t) (st : AppState) : AppState :=
  mkApp v (displayedPosts st) (categories st) (selectedCategories st)
        (loading st) (currentPage st) (searchParams st).

Definition setDisplayedPosts (v : list Post.t) (st : AppState) : AppState :=
  mkApp (allPosts st) v (categories st) (selectedCategories st)
        (loading st) (currentPage st) (searchParams st).

Definition setCategories (v : list CategoryWithCount.t) (st : AppState) : AppState :=
  mkApp (allPosts st) (displayedPosts st) v (selectedCategories st)
        (loading st) (currentPage st) (searchParams st).

Definition setSelectedCategories (v : list string) (st : AppState) : AppState :=
  mkApp (allPosts st) (displayedPosts st) (categories st) v
        (loading st) (currentPage st) (searchParams st).

Definition setLoading (v : bool) (st : AppState) : AppState :=
  mkApp (allPosts st) (displayedPosts st) (categories st) (selectedCategories st)
        v (currentPage st) (searchParams st).

Definition setCurrentPage (v : nat) (st : AppState) : AppState :=
  mkApp (allPosts st) (displayedPosts st) (categories st) (selectedCategories st)
        (loading st) v (searchParams st).

(** [setSearchParams({ categories: s })] is [Some s]; [setSearchParams({})]
    is [None]. *)
Definition setSearchParams (v : option string) (st : AppState) : AppState :=
  mkApp (allPosts st) (displayedPosts st) (categories st) (selectedCategories st)
        (loading st) (currentPage st) v.

(** The state of the first render, for a URL whose [categories] entry is
    [url]. *)
Definition initialState (url : option string) : AppState :=
  mkApp [] [] [] [] true 1 url.

(** Mount effect, lines 43-49: an absent or empty parameter seeds nothing. *)
Definition initFromUrl (st : AppState) : AppState :=
  match searchParams st with
  | Some categoriesFromUrl =>
      if (0 <? String.length categoriesFromUrl)%nat
      then setSelectedCategories (split "," categoriesFromUrl) st
      else st
  | None => st
  end.

(** *** Category aggregation, lines 83-106 *)

(** Lines 88-92, on the record already stored under the name: the count
    goes up, and the identifier is pushed unless it is already listed. *)
Definition countAgain (category : Category.t)
    (entry : CategoryWithCount.t) : CategoryWithCount.t :=
  let counted :=
    CategoryWithCount.mk (CategoryWithCount.id entry)
      (CategoryWithCount.name entry) (CategoryWithCount.ids entry)
      (CategoryWithCount.count entry + 1) in
  if negb (includes (CategoryWithCount.ids counted) (Category.id category))
  then CategoryWithCount.mk (CategoryWithCount.id counted)
         (CategoryWithCount.name counted)
         (CategoryWithCount.ids counted ++ [Category.id category])
         (CategoryWithCount.count counted)
  else counted.

(** Lines 94-99, the record created at the first sighting of a name. *)
Definition firstSighting (category : Category.t) : CategoryWithCount.t :=
  CategoryWithCount.mk (Category.name category) (Category.name category)
    [Category.id category] 1.

(** Body of the inner [forEach], lines 87-100. *)
Definition addCategory (categoryMap : JsMap.t CategoryWithCount.t)
    (category : Category.t) : JsMap.t CategoryWithCount.t :=
  if JsMap.has categoryMap (Category.name category)
  then JsMap.update categoryMap (Category.name category) (countAgain category)
  else JsMap.set categoryMap (Category.name category) (firstSighting category).

(** The two nested [forEach] loops, lines 83-102. *)
Definition buildCategoryMap (posts : list Post.t) : JsMap.t CategoryWithCount.t :=
  fold_left (fun categoryMap post =>
               fold_left addCategory (Post.categories post) categoryMap)
            posts JsMap.empty.

Section Collation.
(** [String.prototype.localeCompare] is the host's collation; the code
    only uses the sign of its result. *)
Variable localeCompare : string -> string -> Z.

(** Lines 105-106. *)
Definition uniqueCategories (posts : list Post.t) : list CategoryWithCount.t :=
  sort (fun a b => localeCompare (CategoryWithCount.name a) (CategoryWithCount.name b))
       (JsMap.values (buildCategoryMap posts)).

(** Lines 72-114. *)
Definition fetchPosts (server : FetchOutcome) : M AppState unit :=
  modify (setLoading true) ;;
  try_catch
    (response ← fetch server "/api/posts";
     data ← json response;
     modify (setAllPosts (ApiResponse.posts data)) ;;
     modify (setCategories (uniqueCategories (ApiResponse.posts data))) ;;
     modify (setLoading false))
    (fun error =>
       console_error "Error fetching posts:" ;;
       modify (setLoading false)).
End Collation.

(** *** Filtering and pagination, lines 121-139 *)

(** The predicate of lines 127-130: some category's name is selected. *)
Definition matchesByName (selected : list string) (post : Post.t) : bool :=
  some (fun category => includes selected (Category.name category))
       (Post.categories post).

(** Lines 122-132. *)
Definition filterPosts (posts : list Post.t) (selected : list string) : list Post.t :=
  if (0 <? length selected)%nat
  then List.filter (matchesByName selected) posts
  else posts.

(** Lines 135-136, with the page size as an argument. *)
Definition paginate (filtered : list Post.t) (pageSize currentPage : nat) : list Post.t :=
  let endIndex := currentPage * pageSize in
  slice0 filtered endIndex.

(** The visible posts for a page size: filter, then paginate. *)
Definition visiblePosts (pageSize : nat) (posts : list Post.t)
    (selected : list string) (page : nat) : list Post.t :=
  paginate (filterPosts posts selected) pageSize page.

(** Lines 121-139: the effect that recomputes [displayedPosts]. *)
Definition filterAndPaginatePosts (st : AppState) : AppState :=
  let filtered := filterPosts (allPosts st) (selectedCategories st) in
  let paginated := paginate filtered POSTS_PER_PAGE (currentPage st) in
  setDisplayedPosts paginated st.

(** *** Handlers, lines 146-185 *)

(** The updater of lines 148-155: the next selection. *)
Definition toggled (prev : list string) (categoryId : string) : list string :=
  if includes prev categoryId
  then List.filter (fun id => negb (String.eqb id categoryId)) prev
  else prev ++ [categoryId].

(** Lines 158-162: the [categories] parameter written for a selection. *)
Definition categoriesParam (newCategories : list string) : option string :=
  if (0 <? length newCategories)%nat
  then Some (join "," newCategories)
  else None.

Definition handleCategoryToggle (categoryId : string) (st : AppState) : AppState :=
  let newCategories := toggled (selectedCategories st) categoryId in
  setCurrentPage 1
    (setSelectedCategories newCategories
       (setSearchParams (categoriesParam newCategories) st)).

Definition handleClearFilters (st : AppState) : AppState :=
  setSearchParams None (setCurrentPage 1 (setSelectedCategories [] st)).

Definition handleLoadMore (st : AppState) : AppState :=
  setCurrentPage (currentPage st + 1) st.

(** *** "Has more", lines 190-201 *)

(** The predicate of lines 195-197: some category's [id] is selected. *)
Definition matchesById (selected : list string) (post : Post.t) : bool :=
  some (fun category => includes selected (Category.id category))
       (Post.categories post).

Definition filteredPostsCount (posts : list Post.t) (selected : list string) : nat :=
  if (length selected =? 0)%nat then length posts
  else length (List.filter (matchesById selected) posts).

Definition getFilteredPostsCount (st : AppState) : nat :=
  filteredPostsCount (allPosts st) (selectedCategories st).

Definition hasMorePosts (st : AppState) : bool :=
  (length (displayedPosts st) <? getFilteredPostsCount st)%nat.

(** The flag for a page size, once the effect has recomputed the visible
    posts. *)
Definition hasMore (pageSize : nat) (posts : list Post.t)
    (selected : list string) (page : nat) : bool :=
  (length (visiblePosts pageSize posts selected page)
   <? filteredPostsCount posts selected)%nat.

(** *** The selection state machine *)

Inductive Action :=
  | Toggle (name : string)
  | Clear
  | LoadMore.

Definition step (st : AppState) (a : Action) : AppState :=
  filterAndPaginatePosts
    match a with
    | Toggle name => handleCategoryToggle name st
    | Clear => handleClearFilters st
    | LoadMore => handleLoadMore st
    end.

Definition run (st : AppState) (actions : list Action) : AppState :=
  fold_left step actions st.

(** ** The post list ([src/components/PostList.tsx]) *)

Inductive ListSection :=
  | LoadingSection
  | GridSection (posts : list Post.t) (loadMoreButton : bool)
  | EmptySection.

Definition PostList (posts : list Post.t) (loading hasMore : bool) : list ListSection :=
  (if loading && (length posts =? 0)%nat then [LoadingSection] else [])
  ++ (if (0 <? length posts)%nat then [GridSection posts hasMore] else [])
  ++ (if negb loading && (length posts =? 0)%nat then [EmptySection] else []).

(** What [App] hands to [PostList], lines 232-237. *)
Definition appPostList (st : AppState) : list ListSection :=
  PostList (displayedPosts st) (loading st) (hasMorePosts st).

(** ** The detail view ([src/components/PostDetail.tsx]) *)

Record DetailState := mkDetail {
  post : option Post.t;
  detailLoading : bool
}.

Definition initialDetail : DetailState := mkDetail None true.

Definition setPost (v : option Post.t) (st : DetailState) : DetailState :=
  mkDetail v (detailLoading st).

Definition setDetailLoading (v : bool) (st : DetailState) : DetailState :=
  mkDetail (post st) v.

(** The effect body, lines 107-121 of the component. *)
Definition fetchPost (server : FetchOutcome) (id : string) : M DetailState unit :=
  modify (setDetailLoading true) ;;
  try_catch
    (response ← fetch server "/api/posts";
     data ← json response;
     let foundPost :=
       List.find (fun p => String.eqb (Post.id p) id) (ApiResponse.posts data) in
     modify (setPost foundPost) ;;
     modify (setDetailLoading false))
    (fun error =>
       console_error "Error fetching post:" ;;
       modify (setDetailLoading false)).

(** What the component returns; [back] is the target of the button's
    [navigate] call. *)
Inductive DetailView :=
  | LoadingView
  | NotFoundView (back : string)
  | PostView (p : Post.t) (back : string).

Definition PostDetail (st : DetailState) : DetailView :=
  if detailLoading st then LoadingView
  else match post st with
       | None => NotFoundView "/"
       | Some p => PostView p "/"
       end.

(** ** Vocabulary of the statements *)

(** A post is selected when one of its categories carries a selected name. *)
Definition selects (selected : list string) (p : Post.t) : Prop :=
  ∃ c, c ∈ Post.categories p ∧ Category.name c ∈ selected.

(** Every category attached to a post, in the order the loops visit them:
    the (post, category) pairs of the collection. *)
Definition categoryOccurrences (posts : list Post.t) : list Category.t :=
  flat_map Post.categories posts.

(** The occurrences that carry the name [k]. *)
Definition occurrencesNamed (k : string) (seen : list Category.t) : list Category.t :=
  List.filter (fun c => String.eqb (Category.name c) k) seen.

(** What the record stored under the name [k] must say about the
    occurrences [seen]. *)
Record Summarises (seen : list Category.t) (k : string)
    (e : CategoryWithCount.t) : Prop := {
  sum_id : CategoryWithCount.id e = k;
  sum_name : CategoryWithCount.name e = k;
  sum_ids_NoDup : NoDup (CategoryWithCount.ids e);
  sum_ids : ∀ i, i ∈ CategoryWithCount.ids e <-> Category.mk i k ∈ seen;
  sum_count : CategoryWithCount.count e = length (occurrencesNamed k seen)
}.

(** The map holds one record per name seen, and each record summarises the
    occurrences of its name. *)
Record Aggregates (seen : list Category.t)
    (m : JsMap.t CategoryWithCount.t) : Prop := {
  agg_keys_NoDup : NoDup (fst <$> m);
  agg_keys : ∀ k, k ∈ fst <$> m <-> k ∈ Category.name <$> seen;
  agg_entries : Forall (fun kv => Summarises seen (fst kv) (snd kv)) m
}.

(** [x] may stay before [y] under the comparator [cmp]. *)
Definition before {A} (cmp : A -> A -> Z) (x y : A) : Prop := (cmp x y <= 0)%Z.

(** The order the comparator of line 106 induces on the aggregated records. *)
Definition byName (localeCompare : string -> string -> Z)
    (a b : CategoryWithCount.t) : Prop :=
  before localeCompare (CategoryWithCount.name a) (CategoryWithCount.name b).

(** Comparison of strings byte by byte, as a comparator. *)
Definition byteCompare (a b : string) : Z :=
  match OrdersEx.String_as_OT.compare a b with
  | Lt => (-1)%Z
  | Eq => 0%Z
  | Gt => 1%Z
  end.

(** ** Sample data *)

Definition mkPost (id : string) (cats : list Category.t) : Post.t :=
  Post.mk id ("Post " ++ id) "2020-01-01T00:00:00Z"
    (Author.mk "Ada" "https://example.org/ada.png") "..." cats.

(** The collection of the scenario in the description: two posts tagged
    "Tech" under different identifiers and one tagged "Life". *)
Definition scenarioPosts : list Post.t :=
  [ mkPost "1" [Category.mk "a" "Tech"];
    mkPost "2" [Category.mk "b" "Tech"];
    mkPost "3" [Category.mk "c" "Life"] ].

(** Seven posts, all tagged "Tech" under the identifier "c1". *)
Definition sevenTechPosts : list Post.t :=
  map (fun id => mkPost id [Category.mk "c1" "Tech"])
      ["1"; "2"; "3"; "4"; "5"; "6"; "7"].

(** ** The category filter ([src/components/CategoryFilter.tsx]) *)

(** One checkbox row, lines 42-57: its React key, the label and count it
    shows, whether it is checked, and the argument its [onChange] passes to
    [onCategoryToggle]. *)
Record FilterItem := mkItem {
  itemKey : string;
  itemLabel : string;
  itemCount : nat;
  itemChecked : bool;
  itemOnChange : string
}.

(** The rendered filter: whether the "Clear All" button is there (line 26)
    and the rows (line 39). *)
Record FilterView := mkFilterView {
  clearButton : bool;
  filterItems : list FilterItem
}.

Definition CategoryFilter (categories : list CategoryWithCount.t)
    (selectedCategories : list string) : FilterView :=
  mkFilterView
    (0 <? length selectedCategories)%nat
    (map (fun category =>
            let isSelected :=
              includes selectedCategories (CategoryWithCount.id category) in
            mkItem (CategoryWithCount.id category)
                   (CategoryWithCount.name category)
                   (CategoryWithCount.count category)
                   isSelected
                   (CategoryWithCount.id category))
         categories).

(** What [App] hands to [CategoryFilter], lines 224-229. *)
Definition appCategoryFilter (st : AppState) : FilterView :=
  CategoryFilter (categories st) (selectedCategories st).

(** ** Further vocabulary *)

(** The string contains a comma. *)
Definition hasComma (s : string) : bool :=
  existsb (Ascii.eqb ",") (list_ascii_of_string s).

(** The [categories] parameter is the one the handlers write for the
    current selection. *)
Definition mirrored (st : AppState) : Prop :=
  searchParams st = categoriesParam (selectedCategories st).

(** The effect of lines 63-66 has run on the current state. *)
Definition settled (st : AppState) : Prop :=
  displayedPosts st
  = paginate (filterPosts (allPosts st) (selectedCategories st))
             POSTS_PER_PAGE (currentPage st).

(** Every category of every post uses its name as its identifier. *)
Definition idsAreNames (posts : list Post.t) : Prop :=
  ∀ p c, p ∈ posts -> c ∈ Post.categories p -> Category.id c = Category.name c.

(** The world [w] with the component state replaced by [st]. *)
Definition withState {S} (w : World S) (st : S) : World S :=
  mkWorld st (requests w) (console w).

(** The two selections have the same members. *)
Definition sameMembers (a b : list string) : Prop := ∀ x, x ∈ a <-> x ∈ b.

(** * Properties *)

(** ** The built-ins *)

Lemma includes_true (l : list string) (x : string) :
  includes l x = true <-> x ∈ l.
Proof.
  unfold includes. rewrite existsb_exists. split.
  - intros (y & Hy & Heq). apply String.eqb_eq in Heq. subst y.
    by apply list_elem_of_In.
  - intros Hx. exists x. split; [by apply list_elem_of_In | apply String.eqb_refl].
Qed.

Lemma includes_false (l : list string) (x : string) :
  includes l x = false <-> x ∉ l.
Proof.
  rewrite <- includes_true. destruct (includes l x); split; congruence.
Qed.

Lemma some_true {A} (f : A -> bool) (l : list A) :
  some f l = true <-> ∃ x, x ∈ l ∧ f x = true.
Proof.
  unfold some. rewrite existsb_exists.
  split; intros (x & Hx & Hf); exists x; split; auto; by apply list_elem_of_In.
Qed.

Lemma length_pos_nonempty {A} (l : list A) :
  (0 <? length l)%nat = true <-> l ≠ [].
Proof.
  destruct l; simpl; split; intros H; try done.
Qed.

Lemma list_filter_elem_of {A} (f : A -> bool) (l : list A) (x : A) :
  x ∈ List.filter f l <-> x ∈ l ∧ f x = true.
Proof. rewrite !list_elem_of_In. apply filter_In. Qed.

Lemma list_filter_sublist {A} (f : A -> bool) (l : list A) :
  sublist (List.filter f l) l.
Proof.
  induction l as [|x l IH]; simpl; [constructor|].
  destruct (f x); by constructor.
Qed.

(** Every sublist whose elements all pass [f] survives filtering. *)
Lemma list_filter_greatest {A} (f : A -> bool) (l k : list A) :
  sublist k l -> Forall (fun x => f x = true) k -> sublist k (List.filter f l).
Proof.
  intros Hsub. induction Hsub as [|x k l Hsub IH|x k l Hsub IH]; intros Hall; simpl.
  - constructor.
  - inversion Hall as [|? ? Hx Hk]; subst. rewrite Hx. constructor. by apply IH.
  - destruct (f x); [constructor|]; by apply IH.
Qed.

(** ** Filter engine *)

Lemma matchesByName_selects selected p :
  matchesByName selected p = true <-> selects selected p.
Proof.
  unfold matchesByName, selects. rewrite some_true.
  split; intros (c & Hc & Hn); exists c; split; auto; by apply includes_true.
Qed.

(** C2. With a non-empty selection the filter keeps exactly the posts that
    have at least one category whose name is selected, in their original
    relative order: the output is a sublist of the collection, all of its
    posts are selected ones, and it is the greatest such sublist. *)
Theorem filter_selected_names_or (posts : list Post.t) (selected : list string) :
  selected ≠ [] ->
  (∀ p, p ∈ filterPosts posts selected <-> p ∈ posts ∧ selects selected p)
  ∧ sublist (filterPosts posts selected) posts
  ∧ (∀ kept, sublist kept posts -> Forall (selects selected) kept ->
             sublist kept (filterPosts posts selected)).
Proof.
  intros Hne. unfold filterPosts.
  apply length_pos_nonempty in Hne. rewrite Hne.
  split; [|split].
  - intros p. rewrite list_filter_elem_of, matchesByName_selects. done.
  - apply list_filter_sublist.
  - intros kept Hsub Hall. apply list_filter_greatest; [done|].
    eapply Forall_impl; [exact Hall|].
    intros p Hp. by apply matchesByName_selects.
Qed.

(** C3. With an empty selection the filter returns the collection itself. *)
Theorem filter_empty_selection_identity (posts : list Post.t) :
  filterPosts posts [] = posts.
Proof. reflexivity. Qed.

(** ** Paginator *)

Lemma paginate_take (filtered : list Post.t) (pageSize n : nat) :
  paginate filtered pageSize n = take (n * pageSize) filtered.
Proof. reflexivity. Qed.

(** C6. A page is the first [pageSize * n] posts, or all of them when there
    are fewer; the page for [n] is a prefix of the page for [n + 1]; and
    paginating a page again changes nothing. *)
Theorem paginate_prefix_idempotent (posts : list Post.t) (pageSize n : nat) :
  (1 ≤ n)%nat ->
  paginate posts pageSize n `prefix_of` paginate posts pageSize (n + 1)
  ∧ paginate (paginate posts pageSize n) pageSize n = paginate posts pageSize n
  ∧ paginate posts pageSize n `prefix_of` posts
  ∧ length (paginate posts pageSize n) = ((pageSize * n) `min` length posts)%nat
  ∧ ((length posts ≤ pageSize * n)%nat -> paginate posts pageSize n = posts).
Proof.
  intros _. rewrite !paginate_take. repeat split.
  - replace (n * pageSize)%nat with ((n * pageSize) `min` ((n + 1) * pageSize))%nat by lia.
    rewrite <- take_take. apply prefix_take.
  - rewrite take_take. f_equal. lia.
  - apply prefix_take.
  - rewrite length_take. lia.
  - intros Hlen. apply take_ge. lia.
Qed.

Lemma filter_selected_names_or_witness :
  ["Tech"] ≠ []
  ∧ (∀ p, p ∈ filterPosts scenarioPosts ["Tech"] <->
          p ∈ scenarioPosts ∧ selects ["Tech"] p)
  ∧ filterPosts scenarioPosts ["Tech"]
    = [mkPost "1" [Category.mk "a" "Tech"]; mkPost "2" [Category.mk "b" "Tech"]].
Proof.
  split; [discriminate|].
  split; [|reflexivity].
  apply (filter_selected_names_or scenarioPosts ["Tech"]). discriminate.
Defined.

Lemma paginate_prefix_idempotent_witness :
  (1 ≤ 1)%nat
  ∧ paginate sevenTechPosts 6 1 `prefix_of` paginate sevenTechPosts 6 (1 + 1)
  ∧ paginate (paginate sevenTechPosts 6 1) 6 1 = paginate sevenTechPosts 6 1.
Proof.
  split; [lia|].
  pose proof (paginate_prefix_idempotent sevenTechPosts 6 1) as H.
  destruct H as (H1 & H2 & _); [lia|]. split; assumption.
Defined.

(** ** "Has more" *)

(** With no selection both counts are the size of the whole collection, so
    the flag compares the visible count with the filtered count. *)
Lemma hasMore_no_selection (pageSize : nat) (posts : list Post.t) (page : nat) :
  hasMore pageSize posts [] page = true
  <-> (length (visiblePosts pageSize posts [] page) < length (filterPosts posts []))%nat.
Proof. unfold hasMore, filteredPostsCount. simpl. apply Nat.ltb_lt. Qed.

(** C1. The flag counts the posts having a category whose [id] is selected,
    while the visible posts are those having a category whose [name] is
    selected.  After loading seven posts tagged "Tech" under the identifier
    "c1" and selecting "Tech", six posts are visible out of seven matching
    ones, and the flag is false. *)
Theorem hasMore_counts_ids_not_names (localeCompare : string -> string -> Z) :
  let loaded :=
    snd (fetchPosts localeCompare (Succeeds (ApiResponse.mk sevenTechPosts))
           (mkWorld (initFromUrl (initialState None)) [] [])) in
  let st := run (filterAndPaginatePosts (state loaded)) [Toggle "Tech"] in
  selectedCategories st = ["Tech"]
  ∧ currentPage st = 1%nat
  ∧ length (displayedPosts st) = 6%nat
  ∧ length (filterPosts (allPosts st) (selectedCategories st)) = 7%nat
  ∧ getFilteredPostsCount st = 0%nat
  ∧ hasMorePosts st = false.
Proof. vm_compute. repeat split. Qed.

(** The scenario of the description, page size 1: post 1 is visible, posts 1
    and 2 match, and the flag is false. *)
Lemma hasMore_scenario :
  map Post.id (visiblePosts 1 scenarioPosts ["Tech"] 1) = ["1"]
  ∧ map Post.id (filterPosts scenarioPosts ["Tech"]) = ["1"; "2"]
  ∧ hasMore 1 scenarioPosts ["Tech"] 1 = false.
Proof. vm_compute. repeat split. Qed.

(** ** Selection state machine *)

Lemma selected_after_effect (st : AppState) :
  selectedCategories (filterAndPaginatePosts st) = selectedCategories st.
Proof. reflexivity. Qed.

Lemma selected_after_toggle (name : string) (st : AppState) :
  selectedCategories (handleCategoryToggle name st)
  = toggled (selectedCategories st) name.
Proof. reflexivity. Qed.

Lemma params_after_toggle (name : string) (st : AppState) :
  searchParams (handleCategoryToggle name st)
  = categoriesParam (toggled (selectedCategories st) name).
Proof. reflexivity. Qed.

Lemma remove_name_elem_of (name x : string) (l : list string) :
  x ∈ List.filter (fun id => negb (String.eqb id name)) l <-> x ∈ l ∧ x ≠ name.
Proof.
  rewrite list_filter_elem_of, negb_true_iff, String.eqb_neq. done.
Qed.

Lemma remove_name_absent (name : string) (l : list string) :
  name ∉ l -> List.filter (fun id => negb (String.eqb id name)) l = l.
Proof.
  induction l as [|y l IH]; simpl; [done|].
  intros Hnot. apply not_elem_of_cons in Hnot as [Hne Hnot].
  destruct (String.eqb_spec y name) as [->|_]; [done|].
  simpl. by rewrite IH.
Qed.

Lemma remove_name_app (name : string) (l k : list string) :
  List.filter (fun id => negb (String.eqb id name)) (l ++ k)
  = List.filter (fun id => negb (String.eqb id name)) l
    ++ List.filter (fun id => negb (String.eqb id name)) k.
Proof. apply List.filter_app. Qed.

Lemma toggled_present (prev : list string) (name : string) :
  name ∈ prev ->
  toggled prev name = List.filter (fun id => negb (String.eqb id name)) prev.
Proof.
  intros Hin. unfold toggled. apply includes_true in Hin. by rewrite Hin.
Qed.

Lemma toggled_absent (prev : list string) (name : string) :
  name ∉ prev -> toggled prev name = prev ++ [name].
Proof.
  intros Hnot. unfold toggled. apply includes_false in Hnot. by rewrite Hnot.
Qed.

Lemma toggled_twice_absent (prev : list string) (name : string) :
  name ∉ prev -> toggled (toggled prev name) name = prev.
Proof.
  intros Hnot. rewrite (toggled_absent prev name Hnot).
  rewrite toggled_present by (apply elem_of_app; right; by apply list_elem_of_singleton).
  rewrite remove_name_app, (remove_name_absent name prev Hnot). simpl.
  rewrite String.eqb_refl. simpl. apply app_nil_r.
Qed.

Lemma toggled_twice_present (prev : list string) (name : string) :
  name ∈ prev ->
  toggled (toggled prev name) name
  = List.filter (fun id => negb (String.eqb id name)) prev ++ [name].
Proof.
  intros Hin. rewrite (toggled_present prev name Hin).
  apply toggled_absent. rewrite remove_name_elem_of. intros [_ Hne]. by apply Hne.
Qed.

Lemma toggled_NoDup (prev : list string) (name : string) :
  NoDup prev -> NoDup (toggled prev name).
Proof.
  intros Hnd. destruct (decide (name ∈ prev)) as [Hin|Hnot].
  - rewrite toggled_present by done.
    apply NoDup_ListNoDup, List.NoDup_filter. by apply NoDup_ListNoDup.
  - rewrite toggled_absent by done.
    apply NoDup_app. split; [done|]. split; [|apply NoDup_singleton].
    intros x Hx Hx'. apply list_elem_of_singleton in Hx'. by subst x.
Qed.

Lemma step_NoDup (st : AppState) (a : Action) :
  NoDup (selectedCategories st) -> NoDup (selectedCategories (step st a)).
Proof.
  intros Hnd. unfold step. rewrite selected_after_effect.
  destruct a as [name| |]; simpl.
  - by apply toggled_NoDup.
  - constructor.
  - done.
Qed.

Lemma run_NoDup (actions : list Action) (st : AppState) :
  NoDup (selectedCategories st) -> NoDup (selectedCategories (run st actions)).
Proof.
  revert st. induction actions as [|a actions IH]; intros st Hnd; simpl; [done|].
  apply IH. by apply step_NoDup.
Qed.

(** C7 (as the code has it). Toggling a name twice gives back a selection
    with the same members, and the [categories] parameter again mirrors it.
    When the name was not selected, the selection list is restored exactly,
    and so is a parameter that mirrored it.  When the name was selected, it
    ends up last in the list. *)
Theorem toggle_twice_same_members (st : AppState) (name : string) :
  let st2 := handleCategoryToggle name (handleCategoryToggle name st) in
  (∀ x, x ∈ selectedCategories st2 <-> x ∈ selectedCategories st)
  ∧ searchParams st2 = categoriesParam (selectedCategories st2)
  ∧ (name ∉ selectedCategories st ->
     selectedCategories st2 = selectedCategories st
     ∧ (searchParams st = categoriesParam (selectedCategories st) ->
        searchParams st2 = searchParams st))
  ∧ (name ∈ selectedCategories st ->
     selectedCategories st2
     = List.filter (fun id => negb (String.eqb id name)) (selectedCategories st)
       ++ [name]).
Proof.
  intros st2. subst st2.
  rewrite params_after_toggle, !selected_after_toggle.
  set (prev := selectedCategories st).
  split; [|split; [reflexivity|split]].
  - intros x. destruct (decide (name ∈ prev)) as [Hin|Hnot].
    + rewrite toggled_twice_present by done.
      rewrite elem_of_app, remove_name_elem_of, list_elem_of_singleton.
      split; [intros [[Hx _]| ->]; done|].
      intros Hx. destruct (decide (x = name)); [by right|by left].
    + by rewrite toggled_twice_absent.
  - intros Hnot. rewrite toggled_twice_absent by done.
    split; [reflexivity|]. intros Hsync. by rewrite Hsync.
  - intros Hin. by apply toggled_twice_present.
Qed.

Lemma toggle_twice_same_members_witness :
  let st := initFromUrl (initialState (Some "a,b")) in
  let st2 := handleCategoryToggle "c" (handleCategoryToggle "c" st) in
  ("c" ∉ selectedCategories st)
  ∧ searchParams st = categoriesParam (selectedCategories st)
  ∧ selectedCategories st2 = selectedCategories st
  ∧ searchParams st2 = searchParams st.
Proof.
  intros st st2.
  assert (Hnot : "c" ∉ selectedCategories st).
  { apply includes_false. reflexivity. }
  assert (Hsync : searchParams st = categoriesParam (selectedCategories st))
    by reflexivity.
  destruct (toggle_twice_same_members st "c") as (_ & _ & Habsent & _).
  destruct (Habsent Hnot) as [Hsel Hurl].
  split; [exact Hnot|]. split; [exact Hsync|]. split; [exact Hsel|].
  exact (Hurl Hsync).
Defined.

(** C7 (as stated) fails: with "a" and "b" selected from the URL, toggling
    "a" twice leaves the parameter "b,a" where it was "a,b". *)
Lemma toggle_twice_reorders_param :
  let st := initFromUrl (initialState (Some "a,b")) in
  let st2 := handleCategoryToggle "a" (handleCategoryToggle "a" st) in
  selectedCategories st = ["a"; "b"]
  ∧ searchParams st = Some "a,b"
  ∧ selectedCategories st2 = ["b"; "a"]
  ∧ searchParams st2 = Some "b,a"
  ∧ selectedCategories st2 ≠ selectedCategories st
  ∧ searchParams st2 ≠ searchParams st.
Proof. vm_compute. repeat split; discriminate. Qed.

(** C10. From an empty selection, no sequence of toggle, clear and load-more
    actions produces a duplicate name: toggling a selected name removes all
    of its occurrences, toggling an unselected one appends it once.  A
    selection seeded from the parameter "a,a" has a duplicate, and keeps it
    through later actions. *)
Theorem selection_without_duplicates :
  (∀ st actions, selectedCategories st = [] ->
                 NoDup (selectedCategories (run st actions)))
  ∧ (∀ prev name, name ∈ prev ->
       (name ∉ toggled prev name)
       ∧ toggled prev name
         = List.filter (fun id => negb (String.eqb id name)) prev)
  ∧ (∀ prev name, name ∉ prev -> toggled prev name = prev ++ [name])
  ∧ (let st := initFromUrl (initialState (Some "a,a")) in
     selectedCategories st = ["a"; "a"]
     ∧ (¬ NoDup (selectedCategories st))
     ∧ (¬ NoDup (selectedCategories (run st [Toggle "b"; LoadMore])))).
Proof.
  split; [|split; [|split]].
  - intros st actions Hempty. apply run_NoDup. rewrite Hempty. constructor.
  - intros prev name Hin. rewrite toggled_present by done.
    split; [|reflexivity]. rewrite remove_name_elem_of. intros [_ Hne]. by apply Hne.
  - apply toggled_absent.
  - vm_compute. split; [reflexivity|].
    split; intros Hnd; apply NoDup_cons in Hnd as [Hnot _]; apply Hnot; constructor.
Qed.

Lemma selection_without_duplicates_witness :
  selectedCategories (initialState None) = []
  ∧ NoDup (selectedCategories
             (run (initialState None)
                [Toggle "a"; Toggle "b"; LoadMore; Toggle "a"; Toggle "a"; Clear; Toggle "b"])).
Proof.
  split; [reflexivity|].
  apply (proj1 selection_without_duplicates (initialState None)). reflexivity.
Defined.

(** ** Detail view *)

Lemma find_absent_id (posts : list Post.t) (id : string) :
  (∀ p, p ∈ posts -> Post.id p ≠ id) ->
  List.find (fun p => String.eqb (Post.id p) id) posts = None.
Proof.
  intros Habsent. induction posts as [|q posts IH]; simpl; [done|].
  destruct (String.eqb_spec (Post.id q) id) as [Heq|_].
  - exfalso. apply (Habsent q); [constructor|done].
  - apply IH. intros p Hp. apply Habsent. by constructor.
Qed.

(** C8. When the collection arrives and holds no post with the requested
    identifier, the effect returns normally and the component shows the
    "not found" view, whose button leads back to the list at "/". *)
Theorem unknown_post_renders_not_found
    (data : ApiResponse.t) (id : string) (w : World DetailState) :
  (∀ p, p ∈ ApiResponse.posts data -> Post.id p ≠ id) ->
  let '(result, w') := fetchPost (Succeeds data) id w in
  result = Returned tt
  ∧ detailLoading (state w') = false
  ∧ post (state w') = None
  ∧ PostDetail (state w') = NotFoundView "/".
Proof.
  intros Habsent. unfold fetchPost, try_catch, mbind, M_bind, fetch, json, modify.
  simpl. rewrite (find_absent_id _ _ Habsent). unfold PostDetail. simpl. done.
Qed.

Lemma unknown_post_renders_not_found_witness :
  (∀ p, p ∈ scenarioPosts -> Post.id p ≠ "42")
  ∧ PostDetail
      (state (snd (fetchPost (Succeeds (ApiResponse.mk scenarioPosts)) "42"
                     (mkWorld initialDetail [] []))))
    = NotFoundView "/".
Proof.
  assert (Habsent : ∀ p, p ∈ ApiResponse.posts (ApiResponse.mk scenarioPosts) ->
                         Post.id p ≠ "42").
  { intros p Hp. simpl in Hp. unfold scenarioPosts in Hp.
    repeat (apply elem_of_cons in Hp as [->|Hp]; [discriminate|]).
    by apply elem_of_nil in Hp. }
  split; [exact Habsent|].
  pose proof (unknown_post_renders_not_found
                (ApiResponse.mk scenarioPosts) "42"
                (mkWorld initialDetail [] []) Habsent) as H.
  destruct (fetchPost (Succeeds (ApiResponse.mk scenarioPosts)) "42"
              (mkWorld initialDetail [] [])) as [result w'].
  simpl. apply H.
Defined.

(** ** Failed collection fetch *)

(** C9. When the request or the parsing of its body fails, [fetchPosts]
    returns normally (nothing is thrown past the handler), has issued the one
    request and no other, has logged the error, and leaves the state as it
    was except for [loading], which is false.  On the first load the effect
    then shows no post and the list renders its empty section alone. *)
Theorem failed_fetch_clears_loading
    (localeCompare : string -> string -> Z) (f : FetchFailure) :
  (∀ w : World AppState,
     let '(result, w') := fetchPosts localeCompare (Fails f) w in
     result = Returned tt
     ∧ loading (state w') = false
     ∧ allPosts (state w') = allPosts (state w)
     ∧ categories (state w') = categories (state w)
     ∧ state w' = setLoading false (state w)
     ∧ requests w' = requests w ++ ["/api/posts"]
     ∧ console w' = console w ++ ["Error fetching posts:"])
  ∧ (∀ url,
       let w' := snd (fetchPosts localeCompare (Fails f)
                        (mkWorld (initFromUrl (initialState url)) [] [])) in
       let st := filterAndPaginatePosts (state w') in
       allPosts st = [] ∧ categories st = [] ∧ displayedPosts st = []
       ∧ requests w' = ["/api/posts"]
       ∧ appPostList st = [EmptySection]).
Proof.
  split.
  - intros w. destruct f; simpl; repeat split; by destruct w as [[] ? ?].
  - intros url. unfold initFromUrl, initialState. simpl.
    destruct url as [s|]; [destruct (0 <? String.length s)%nat|];
      destruct f; simpl; repeat split;
      unfold appPostList, filterAndPaginatePosts, filterPosts; simpl;
      try (destruct (0 <? length (split "," s))%nat; reflexivity); reflexivity.
Qed.

(** ** Sorting *)

Section Sort.
Context {A : Type} (cmp : A -> A -> Z).

Lemma sort_insert_Permutation (x : A) (l : list A) :
  sort_insert cmp x l ≡ₚ x :: l.
Proof.
  induction l as [|y l IH]; simpl; [done|].
  destruct (cmp x y <=? 0)%Z; [done|].
  rewrite IH. apply Permutation_swap.
Qed.

Lemma sort_Permutation (l : list A) : sort cmp l ≡ₚ l.
Proof.
  induction l as [|x l IH]; simpl; [done|].
  rewrite sort_insert_Permutation. by rewrite IH.
Qed.

Hypothesis cmp_total : ∀ x y, before cmp x y ∨ before cmp y x.
Hypothesis cmp_trans : ∀ x y z, before cmp x y -> before cmp y z -> before cmp x z.

Lemma sort_insert_StronglySorted (x : A) (l : list A) :
  StronglySorted (before cmp) l -> StronglySorted (before cmp) (sort_insert cmp x l).
Proof.
  induction l as [|y l IH]; intros Hs; simpl.
  - repeat constructor.
  - apply StronglySorted_inv in Hs as [Hl Hy].
    destruct (Z.leb_spec (cmp x y) 0) as [Hle|Hgt].
    + constructor; [by constructor|].
      constructor; [done|].
      eapply Forall_impl; [exact Hy|]. intros z Hz. by eapply cmp_trans.
    + constructor; [by apply IH|].
      rewrite sort_insert_Permutation. constructor; [|done].
      destruct (cmp_total x y) as [Hxy|Hyx]; [|done].
      unfold before in Hxy. lia.
Qed.

Lemma sort_StronglySorted (l : list A) : StronglySorted (before cmp) (sort cmp l).
Proof.
  induction l as [|x l IH]; simpl; [constructor|].
  by apply sort_insert_StronglySorted.
Qed.
End Sort.

(** ** The insertion-ordered map *)

Section JsMapFacts.
Context {V : Type}.
Implicit Types (m : JsMap.t V) (k : string).

Lemma has_true m k : JsMap.has m k = true <-> k ∈ fst <$> m.
Proof.
  unfold JsMap.has. rewrite existsb_exists, list_elem_of_fmap. split.
  - intros (kv & Hin & Heq). apply String.eqb_eq in Heq.
    exists kv. split; [done|by apply list_elem_of_In].
  - intros (kv & -> & Hin). exists kv.
    split; [by apply list_elem_of_In|apply String.eqb_refl].
Qed.

Lemma has_false m k : JsMap.has m k = false <-> k ∉ fst <$> m.
Proof. rewrite <- has_true. destruct (JsMap.has m k); split; congruence. Qed.

Lemma set_fresh m k (v : V) :
  k ∉ fst <$> m -> JsMap.set m k v = m ++ [(k, v)].
Proof. intros Hk. unfold JsMap.set. apply has_false in Hk. by rewrite Hk. Qed.

Lemma update_keys m k (f : V -> V) :
  fst <$> JsMap.update m k f = fst <$> m.
Proof.
  induction m as [|[k' v] m IH]; simpl; [done|].
  destruct (String.eqb k' k); simpl; [done|]. by f_equal.
Qed.

(** With distinct keys, [update] touches the record under [k] and no
    other. *)
Lemma update_Forall (P Q : string * V -> Prop) m k (f : V -> V) :
  NoDup (fst <$> m) ->
  Forall P m ->
  (∀ v, P (k, v) -> Q (k, f v)) ->
  (∀ k' v, k' ≠ k -> P (k', v) -> Q (k', v)) ->
  Forall Q (JsMap.update m k f).
Proof.
  intros Hnd Hall Hhit Hmiss.
  induction m as [|[k' v] m IH]; simpl; [constructor|].
  apply NoDup_cons in Hnd as [Hfresh Hnd].
  apply Forall_cons in Hall as [Hhead Hall].
  destruct (String.eqb_spec k' k) as [->|Hne].
  - constructor; [by apply Hhit|].
    apply Forall_forall. intros [k'' v''] Hin.
    apply Hmiss; [|by eapply Forall_forall in Hall].
    intros ->. apply Hfresh, list_elem_of_fmap. by exists (k, v'').
  - constructor; [by apply Hmiss|]. by apply IH.
Qed.
End JsMapFacts.

(** ** Category aggregation *)

Lemma occurrencesNamed_snoc (k : string) (seen : list Category.t) (c : Category.t) :
  occurrencesNamed k (seen ++ [c])
  = occurrencesNamed k seen ++ (if String.eqb (Category.name c) k then [c] else []).
Proof. unfold occurrencesNamed. rewrite List.filter_app. reflexivity. Qed.

Lemma occurrencesNamed_unseen (k : string) (seen : list Category.t) :
  k ∉ Category.name <$> seen -> occurrencesNamed k seen = [].
Proof.
  induction seen as [|c seen IH]; simpl; [done|].
  intros Hk. apply not_elem_of_cons in Hk as [Hne Hk].
  destruct (String.eqb_spec (Category.name c) k) as [Heq|_]; [by subst k|].
  by apply IH.
Qed.

Lemma named_elem_of_snoc (i k : string) (seen : list Category.t) (c : Category.t) :
  Category.mk i k ∈ seen ++ [c]
  <-> Category.mk i k ∈ seen ∨ (i = Category.id c ∧ k = Category.name c).
Proof.
  rewrite elem_of_app, list_elem_of_singleton. destruct c as [ci cn]. simpl.
  split; (intros [H|H]; [by left|right]); [by inversion H|by destruct H as [-> ->]].
Qed.

(** A sighting of another name leaves a record accurate. *)
Lemma Summarises_other seen k e c :
  Category.name c ≠ k -> Summarises seen k e -> Summarises (seen ++ [c]) k e.
Proof.
  intros Hne [Hid Hname Hnd Hids Hcount]. split; try done.
  - intros i. rewrite named_elem_of_snoc, Hids.
    split; [by left|]. intros [H|[_ Hk]]; [done|]. by subst k.
  - rewrite occurrencesNamed_snoc.
    destruct (String.eqb_spec (Category.name c) k) as [Heq|_]; [done|].
    by rewrite app_nil_r.
Qed.

(** A further sighting of a name, counted by [countAgain]. *)
Lemma Summarises_countAgain seen e c :
  Summarises seen (Category.name c) e ->
  Summarises (seen ++ [c]) (Category.name c) (countAgain c e).
Proof.
  intros [Hid Hname Hnd Hids Hcount]. unfold countAgain. simpl.
  assert (Hlen : length (occurrencesNamed (Category.name c) (seen ++ [c]))
                 = (length (occurrencesNamed (Category.name c) seen) + 1)%nat).
  { rewrite occurrencesNamed_snoc, String.eqb_refl, length_app. reflexivity. }
  destruct (includes (CategoryWithCount.ids e) (Category.id c)) eqn:Hinc; simpl.
  - apply includes_true in Hinc. split; simpl; try done.
    + intros i. rewrite named_elem_of_snoc, Hids.
      split; [by left|]. intros [H|[-> _]]; [done|]. by apply Hids.
    + by rewrite Hlen, Hcount.
  - apply includes_false in Hinc. split; simpl; try done.
    + apply NoDup_app. split; [done|]. split; [|apply NoDup_singleton].
      intros i Hi Hi'. apply list_elem_of_singleton in Hi'. by subst i.
    + intros i. rewrite named_elem_of_snoc, elem_of_app, list_elem_of_singleton, Hids.
      split; (intros [H|H]; [by left|right]); [done|by destruct H].
    + by rewrite Hlen, Hcount.
Qed.

(** The first sighting of a name. *)
Lemma Summarises_firstSighting seen c :
  Category.name c ∉ Category.name <$> seen ->
  Summarises (seen ++ [c]) (Category.name c) (firstSighting c).
Proof.
  intros Hnew. unfold firstSighting. split; simpl; try done.
  - apply NoDup_singleton.
  - intros i. rewrite named_elem_of_snoc, list_elem_of_singleton.
    split; [by right|]. intros [H|[H _]]; [|done].
    exfalso. apply Hnew, list_elem_of_fmap. by exists (Category.mk i (Category.name c)).
  - rewrite occurrencesNamed_snoc, String.eqb_refl, length_app.
    by rewrite (occurrencesNamed_unseen _ _ Hnew).
Qed.

Lemma Aggregates_empty : Aggregates [] JsMap.empty.
Proof. split; [constructor|done|constructor]. Qed.

(** One iteration of the inner loop keeps the map an aggregate of what has
    been visited. *)
Lemma addCategory_Aggregates seen m c :
  Aggregates seen m -> Aggregates (seen ++ [c]) (addCategory m c).
Proof.
  intros [Hnd Hkeys Hall]. unfold addCategory.
  destruct (JsMap.has m (Category.name c)) eqn:Hhas.
  - apply has_true in Hhas. split.
    + by rewrite update_keys.
    + intros k. rewrite update_keys, Hkeys, fmap_app, elem_of_app.
      split; [by left|]. intros [H|H]; [done|].
      apply list_elem_of_singleton in H. subst k. by apply Hkeys.
    + eapply update_Forall; [exact Hnd|exact Hall| |]; simpl.
      * intros v. apply Summarises_countAgain.
      * intros k' v Hne. apply Summarises_other. congruence.
  - apply has_false in Hhas. rewrite set_fresh by done. split.
    + rewrite fmap_app. apply NoDup_app. split; [done|].
      split; [|apply NoDup_singleton].
      intros k Hk Hk'. apply list_elem_of_singleton in Hk'. by subst k.
    + intros k. rewrite !fmap_app, !elem_of_app, Hkeys. done.
    + apply Forall_app. split.
      * apply Forall_forall. intros [k v] Hin. simpl.
        apply Summarises_other.
        -- intros Heq. apply Hhas, list_elem_of_fmap. by exists (k, v).
        -- exact (proj1 (Forall_forall _ _) Hall (k, v) Hin).
      * constructor; [|constructor]. simpl.
        apply Summarises_firstSighting. by rewrite <- Hkeys.
Qed.

Lemma fold_addCategory_Aggregates (cs seen : list Category.t) m :
  Aggregates seen m -> Aggregates (seen ++ cs) (fold_left addCategory cs m).
Proof.
  revert seen m. induction cs as [|c cs IH]; intros seen m Hagg; simpl.
  - by rewrite app_nil_r.
  - replace (seen ++ c :: cs) with ((seen ++ [c]) ++ cs) by (by rewrite <- app_assoc).
    apply IH. by apply addCategory_Aggregates.
Qed.

(** The nested loops visit the occurrences in order. *)
Lemma buildCategoryMap_occurrences (posts : list Post.t) :
  buildCategoryMap posts
  = fold_left addCategory (categoryOccurrences posts) JsMap.empty.
Proof.
  unfold buildCategoryMap, categoryOccurrences.
  generalize (@JsMap.empty CategoryWithCount.t) as m.
  induction posts as [|p posts IH]; intros m; simpl; [done|].
  by rewrite fold_left_app, IH.
Qed.

Lemma buildCategoryMap_Aggregates (posts : list Post.t) :
  Aggregates (categoryOccurrences posts) (buildCategoryMap posts).
Proof.
  rewrite buildCategoryMap_occurrences.
  apply (fold_addCategory_Aggregates _ [] _ Aggregates_empty).
Qed.

(** *** Counts add up *)

Lemma update_count_sum (m : JsMap.t CategoryWithCount.t) (k : string)
    (f : CategoryWithCount.t -> CategoryWithCount.t) :
  k ∈ fst <$> m ->
  (∀ e, CategoryWithCount.count (f e) = (CategoryWithCount.count e + 1)%nat) ->
  sum_list_with CategoryWithCount.count (JsMap.values (JsMap.update m k f))
  = (sum_list_with CategoryWithCount.count (JsMap.values m) + 1)%nat.
Proof.
  intros Hin Hf. induction m as [|[k' e] m IH]; simpl.
  - by apply elem_of_nil in Hin.
  - destruct (String.eqb_spec k' k) as [->|Hne]; simpl.
    + rewrite Hf. lia.
    + apply elem_of_cons in Hin as [Heq|Hin]; [simpl in Heq; congruence|].
      rewrite (IH Hin). lia.
Qed.

Lemma countAgain_count (c : Category.t) (e : CategoryWithCount.t) :
  CategoryWithCount.count (countAgain c e) = (CategoryWithCount.count e + 1)%nat.
Proof. unfold countAgain. simpl. by destruct (includes _ _). Qed.

Lemma addCategory_count_sum (m : JsMap.t CategoryWithCount.t) (c : Category.t) :
  sum_list_with CategoryWithCount.count (JsMap.values (addCategory m c))
  = (sum_list_with CategoryWithCount.count (JsMap.values m) + 1)%nat.
Proof.
  unfold addCategory. destruct (JsMap.has m (Category.name c)) eqn:Hhas.
  - apply has_true in Hhas. apply update_count_sum; [done|].
    apply countAgain_count.
  - apply has_false in Hhas. rewrite set_fresh by done.
    unfold JsMap.values. rewrite fmap_app, sum_list_with_app. simpl. lia.
Qed.

Lemma fold_addCategory_count_sum (cs : list Category.t) (m : JsMap.t CategoryWithCount.t) :
  sum_list_with CategoryWithCount.count (JsMap.values (fold_left addCategory cs m))
  = (sum_list_with CategoryWithCount.count (JsMap.values m) + length cs)%nat.
Proof.
  revert m. induction cs as [|c cs IH]; intros m; simpl; [lia|].
  rewrite IH, addCategory_count_sum. lia.
Qed.

(** *** What a successful fetch stores *)

Lemma fetchPosts_success (localeCompare : string -> string -> Z)
    (data : ApiResponse.t) (w : World AppState) :
  fetchPosts localeCompare (Succeeds data) w
  = (Returned tt,
     mkWorld
       (setLoading false
          (setCategories (uniqueCategories localeCompare (ApiResponse.posts data))
             (setAllPosts (ApiResponse.posts data) (setLoading true (state w)))))
       (requests w ++ ["/api/posts"]) (console w)).
Proof. reflexivity. Qed.

(** *** The stored list *)

Lemma Aggregates_names seen (m : JsMap.t CategoryWithCount.t) :
  Aggregates seen m -> CategoryWithCount.name <$> JsMap.values m = fst <$> m.
Proof.
  intros [_ _ Hall]. induction Hall as [|[k e] m He Hall IH]; simpl; [done|].
  f_equal; [apply (sum_name _ _ _ He)|exact IH].
Qed.

Lemma Aggregates_values seen (m : JsMap.t CategoryWithCount.t) e :
  Aggregates seen m -> e ∈ JsMap.values m -> Summarises seen (CategoryWithCount.name e) e.
Proof.
  intros [_ _ Hall] Hin. apply list_elem_of_fmap in Hin as ([k e'] & -> & Hin).
  pose proof (proj1 (Forall_forall _ _) Hall _ Hin) as He. simpl in *.
  by rewrite (sum_name _ _ _ He).
Qed.

Lemma uniqueCategories_Permutation (localeCompare : string -> string -> Z)
    (posts : list Post.t) :
  uniqueCategories localeCompare posts ≡ₚ JsMap.values (buildCategoryMap posts).
Proof. apply sort_Permutation. Qed.

(** *** A comparator to run the code with *)

Lemma byteCompare_before (a b : string) :
  before byteCompare a b <-> OrdersEx.String_as_OT.compare a b ≠ Gt.
Proof.
  unfold before, byteCompare.
  destruct (OrdersEx.String_as_OT.compare a b); split; intros H; try done; lia.
Qed.

Lemma byteCompare_total (a b : string) :
  before byteCompare a b ∨ before byteCompare b a.
Proof.
  rewrite !byteCompare_before.
  destruct (OrdersEx.String_as_OT.compare_spec a b) as [Heq|Hlt|Hgt].
  - by left.
  - by left.
  - right. unfold OrdersEx.String_as_OT.lt in Hgt. by rewrite Hgt.
Qed.

Lemma byteCompare_trans (a b c : string) :
  before byteCompare a b -> before byteCompare b c -> before byteCompare a c.
Proof.
  rewrite !byteCompare_before. intros Hab Hbc.
  destruct (OrdersEx.String_as_OT.compare_spec a b) as [Heq|Hlt|Hgt]; [red in Heq; by subst b| |done].
  destruct (OrdersEx.String_as_OT.compare_spec b c) as [Heq'|Hlt'|Hgt']; [red in Heq'; subst c| |done].
  - unfold OrdersEx.String_as_OT.lt in Hlt. by rewrite Hlt.
  - assert (Hac : OrdersEx.String_as_OT.lt a c) by (by etransitivity).
    unfold OrdersEx.String_as_OT.lt in Hac. by rewrite Hac.
Qed.

(** *** The aggregated categories *)

Lemma categoryOccurrences_length (posts : list Post.t) :
  length (categoryOccurrences posts)
  = sum_list_with (fun p => length (Post.categories p)) posts.
Proof.
  unfold categoryOccurrences.
  induction posts as [|p posts IH]; simpl; [done|].
  rewrite length_app. by f_equal.
Qed.

(** C5. The counts of the stored categories add up to the number of
    (post, category) pairs of the collection; a post without categories,
    wherever it stands in the collection, adds nothing. *)
Theorem counts_sum_to_occurrences (localeCompare : string -> string -> Z)
    (data : ApiResponse.t) (w : World AppState) :
  let cats := categories (state (snd (fetchPosts localeCompare (Succeeds data) w))) in
  sum_list_with CategoryWithCount.count cats
  = sum_list_with (fun p => length (Post.categories p)) (ApiResponse.posts data)
  ∧ sum_list_with CategoryWithCount.count cats
    = length (categoryOccurrences (ApiResponse.posts data))
  ∧ (∀ p earlier later, Post.categories p = [] ->
          uniqueCategories localeCompare (earlier ++ p :: later)
          = uniqueCategories localeCompare (earlier ++ later)).
Proof.
  rewrite fetchPosts_success. simpl.
  assert (Hsum : sum_list_with CategoryWithCount.count
                   (uniqueCategories localeCompare (ApiResponse.posts data))
                 = length (categoryOccurrences (ApiResponse.posts data))).
  { rewrite uniqueCategories_Permutation, buildCategoryMap_occurrences.
    rewrite fold_addCategory_count_sum. reflexivity. }
  split; [|split; [exact Hsum|]].
  - rewrite Hsum. apply categoryOccurrences_length.
  - intros p earlier later Hp. unfold uniqueCategories.
    rewrite !buildCategoryMap_occurrences. unfold categoryOccurrences.
    rewrite !flat_map_app. simpl. by rewrite Hp.
Qed.

Lemma counts_sum_to_occurrences_witness :
  Post.categories (mkPost "0" []) = []
  ∧ sum_list_with CategoryWithCount.count
      (categories (state (snd (fetchPosts byteCompare
         (Succeeds (ApiResponse.mk (mkPost "0" [] :: scenarioPosts)))
         (mkWorld (initialState None) [] [])))))
    = 3%nat.
Proof.
  split; [reflexivity|].
  destruct (counts_sum_to_occurrences byteCompare
              (ApiResponse.mk (mkPost "0" [] :: scenarioPosts))
              (mkWorld (initialState None) [] [])) as (_ & Hsum & _).
  exact Hsum.
Defined.

Section Aggregator.
Variable localeCompare : string -> string -> Z.

(** The comparator is a consistent one: any two names are comparable, and
    the order is transitive. *)
Hypothesis localeCompare_total :
  ∀ a b, before localeCompare a b ∨ before localeCompare b a.
Hypothesis localeCompare_trans :
  ∀ a b c, before localeCompare a b -> before localeCompare b c ->
           before localeCompare a c.

(** C4. After a successful fetch the stored categories hold one record per
    category name occurring in the collection.  The record's [id] is that
    name, its [ids] list the identifiers seen under the name, each once,
    and its [count] is the number of occurrences of the name.  Two posts
    carrying one name under two identifiers give a single record with
    count 2 and both identifiers.  The list is ordered by name. *)
Theorem categories_collapse_by_name (data : ApiResponse.t) (w : World AppState) :
  let occs := categoryOccurrences (ApiResponse.posts data) in
  let cats := categories (state (snd (fetchPosts localeCompare (Succeeds data) w))) in
  NoDup (CategoryWithCount.name <$> cats)
  ∧ (∀ k, k ∈ CategoryWithCount.name <$> cats <-> k ∈ Category.name <$> occs)
  ∧ (∀ e, e ∈ cats ->
       CategoryWithCount.id e = CategoryWithCount.name e
       ∧ NoDup (CategoryWithCount.ids e)
       ∧ (∀ i, i ∈ CategoryWithCount.ids e
               <-> Category.mk i (CategoryWithCount.name e) ∈ occs)
       ∧ CategoryWithCount.count e
         = length (occurrencesNamed (CategoryWithCount.name e) occs))
  ∧ StronglySorted (byName localeCompare) cats
  ∧ (∀ p1 p2 i1 i2 n,
       Post.categories p1 = [Category.mk i1 n] ->
       Post.categories p2 = [Category.mk i2 n] ->
       i1 ≠ i2 ->
       uniqueCategories localeCompare [p1; p2]
       = [CategoryWithCount.mk n n [i1; i2] 2]).
Proof.
  rewrite fetchPosts_success. simpl.
  pose proof (buildCategoryMap_Aggregates (ApiResponse.posts data)) as Hagg.
  pose proof (uniqueCategories_Permutation localeCompare (ApiResponse.posts data))
    as Hperm.
  split; [|split; [|split; [|split]]].
  - rewrite Hperm, (Aggregates_names _ _ Hagg). apply (agg_keys_NoDup _ _ Hagg).
  - intros k. rewrite Hperm, (Aggregates_names _ _ Hagg).
    apply (agg_keys _ _ Hagg).
  - intros e He. rewrite Hperm in He.
    destruct (Aggregates_values _ _ _ Hagg He) as [Hid Hname Hnd Hids Hcount].
    by rewrite Hid.
  - unfold uniqueCategories.
    apply (sort_StronglySorted
             (fun a b => localeCompare (CategoryWithCount.name a)
                                       (CategoryWithCount.name b))).
    + intros x y. apply localeCompare_total.
    + intros x y z. apply localeCompare_trans.
  - intros p1 p2 i1 i2 n H1 H2 Hne.
    unfold uniqueCategories, buildCategoryMap. simpl. rewrite H1, H2. simpl.
    unfold addCategory at 2. simpl.
    change (JsMap.set JsMap.empty n (firstSighting (Category.mk i1 n)))
      with [(n, firstSighting (Category.mk i1 n))].
    unfold addCategory, JsMap.has, countAgain, firstSighting, includes. simpl.
    rewrite String.eqb_refl. simpl.
    destruct (String.eqb_spec i2 i1) as [Heq|_]; [by subst i2|]. reflexivity.
Qed.
End Aggregator.

Lemma categories_collapse_by_name_witness :
  (∀ a b, before byteCompare a b ∨ before byteCompare b a)
  ∧ (∀ a b c, before byteCompare a b -> before byteCompare b c ->
              before byteCompare a c)
  ∧ categories (state (snd (fetchPosts byteCompare
       (Succeeds (ApiResponse.mk scenarioPosts))
       (mkWorld (initialState None) [] []))))
    = [CategoryWithCount.mk "Life" "Life" ["c"] 1;
       CategoryWithCount.mk "Tech" "Tech" ["a"; "b"] 2]
  ∧ StronglySorted (byName byteCompare)
      (categories (state (snd (fetchPosts byteCompare
         (Succeeds (ApiResponse.mk scenarioPosts))
         (mkWorld (initialState None) [] []))))).
Proof.
  split; [exact byteCompare_total|]. split; [exact byteCompare_trans|].
  split; [reflexivity|].
  destruct (categories_collapse_by_name byteCompare byteCompare_total
              byteCompare_trans (ApiResponse.mk scenarioPosts)
              (mkWorld (initialState None) [] [])) as (_ & _ & _ & Hsorted & _).
  exact Hsorted.
Defined.


(** * Further properties *)

(** ** Strings *)

Lemma append_nil_l (s : string) : ("" ++ s)%string = s.
Proof. reflexivity. Qed.

Lemma append_cons (c : ascii) (a b : string) :
  (String c a ++ b)%string = String c (a ++ b).
Proof. reflexivity. Qed.

Lemma append_nil_r (s : string) : (s ++ "")%string = s.
Proof. induction s as [|x s IH]; [done|]. rewrite append_cons. by f_equal. Qed.

Lemma append_assoc (a b c : string) : ((a ++ b) ++ c = a ++ (b ++ c))%string.
Proof.
  induction a as [|x a IH]; [done|]. rewrite !append_cons. by f_equal.
Qed.

Lemma append_length (a b : string) :
  String.length (a ++ b) = (String.length a + String.length b)%nat.
Proof.
  induction a as [|x a IH]; [done|]. rewrite append_cons. simpl. by f_equal.
Qed.

Lemma hasComma_cons (c : ascii) (s : string) :
  hasComma (String c s) = (Ascii.eqb "," c || hasComma s).
Proof. reflexivity. Qed.

Lemma split_from_nonempty (sep : ascii) (cur s : string) :
  split_from sep cur s ≠ [].
Proof.
  revert cur. induction s as [|c s IH]; intros cur; simpl; [done|].
  destruct (Ascii.eqb c sep); [done|apply IH].
Qed.

Lemma join_cons (sep x : string) (l : list string) :
  l ≠ [] -> join sep (x :: l) = (x ++ sep ++ join sep l)%string.
Proof. destruct l; [done|reflexivity]. Qed.

(** Joining the pieces of a split gives the string back. *)
Lemma join_split_from (cur s : string) :
  join "," (split_from "," cur s) = (cur ++ s)%string.
Proof.
  revert cur. induction s as [|c s IH]; intros cur; simpl.
  - by rewrite append_nil_r.
  - destruct (Ascii.eqb_spec c ",") as [->|_].
    + rewrite join_cons by apply split_from_nonempty. by rewrite IH.
    + rewrite IH. apply append_assoc.
Qed.

Lemma split_from_no_comma (cur s : string) :
  hasComma s = false -> split_from "," cur s = [(cur ++ s)%string].
Proof.
  revert cur. induction s as [|c s IH]; intros cur Hs; simpl.
  - by rewrite append_nil_r.
  - rewrite hasComma_cons in Hs. apply orb_false_iff in Hs as [Hc Hs].
    rewrite Ascii.eqb_sym, Hc. rewrite (IH _ Hs). by rewrite append_assoc.
Qed.

Lemma split_from_piece (cur x rest : string) :
  hasComma x = false ->
  split_from "," cur (x ++ "," ++ rest) = (cur ++ x)%string :: split_from "," "" rest.
Proof.
  revert cur. induction x as [|c x IH]; intros cur Hx.
  - rewrite append_nil_l, append_nil_r. simpl. reflexivity.
  - rewrite hasComma_cons in Hx. apply orb_false_iff in Hx as [Hc Hx].
    rewrite append_cons. simpl.
    rewrite Ascii.eqb_sym, Hc. rewrite (IH _ Hx). by rewrite append_assoc.
Qed.

(** Splitting the join of comma-free names gives the names back. *)
Lemma split_join (l : list string) :
  l ≠ [] -> Forall (fun x => hasComma x = false) l -> split "," (join "," l) = l.
Proof.
  intros Hne Hall. unfold split.
  induction Hall as [|x l Hx Hall IH]; [done|].
  destruct l as [|y l].
  - simpl. by rewrite split_from_no_comma.
  - rewrite join_cons by done. rewrite split_from_piece by done.
    rewrite append_nil_l. f_equal. by apply IH.
Qed.

(** ** The URL parameter *)

Lemma categoriesParam_split (s : string) :
  categoriesParam (split "," s) = Some s.
Proof.
  unfold categoriesParam, split.
  pose proof (split_from_nonempty "," "" s) as Hne.
  apply length_pos_nonempty in Hne. rewrite Hne.
  by rewrite join_split_from, append_nil_l.
Qed.

Lemma mirrored_step (st : AppState) (a : Action) :
  mirrored st ∨ a ≠ LoadMore -> mirrored (step st a).
Proof.
  intros H. unfold mirrored, step. destruct a as [name| |]; simpl.
  - reflexivity.
  - reflexivity.
  - destruct H as [H|H]; [exact H|done].
Qed.

(** X1. The [categories] parameter mirrors the selection: it does right
    after the selection is seeded from any URL other than one with an empty
    [categories] value, every toggle and clear makes it so, and no sequence
    of actions breaks it.  With an empty value in the URL nothing is seeded
    and the parameter stays, so it does not mirror the empty selection
    until the first toggle or clear. *)
Theorem url_mirrors_selection :
  (∀ url, url ≠ Some "" -> mirrored (initFromUrl (initialState url)))
  ∧ (∀ st name, mirrored (step st (Toggle name)))
  ∧ (∀ st, mirrored (step st Clear))
  ∧ (∀ st actions, mirrored st -> mirrored (run st actions))
  ∧ (¬ mirrored (initFromUrl (initialState (Some "")))).
Proof.
  split; [|split; [|split; [|split]]].
  - intros [s|] Hurl; [|reflexivity].
    unfold mirrored, initFromUrl. simpl.
    destruct s as [|c s]; [done|]. simpl searchParams.
    change (0 <? String.length (String c s))%nat with true. simpl.
    symmetry. apply categoriesParam_split.
  - intros st name. apply mirrored_step. by right.
  - intros st. apply mirrored_step. by right.
  - intros st actions. revert st.
    induction actions as [|a actions IH]; intros st Hm; simpl; [done|].
    apply IH, mirrored_step. by left.
  - unfold mirrored. simpl. discriminate.
Qed.

Lemma url_mirrors_selection_witness :
  Some "Tech,Life" ≠ Some ""
  ∧ mirrored (run (initFromUrl (initialState (Some "Tech,Life")))
                [Toggle "Tech"; LoadMore; Toggle "Art"]).
Proof.
  split; [discriminate|].
  destruct url_mirrors_selection as (Hseed & _ & _ & Hrun & _).
  apply Hrun, Hseed. discriminate.
Defined.

Lemma seeded_selection (s : string) :
  (0 < String.length s)%nat ->
  selectedCategories (initFromUrl (initialState (Some s))) = split "," s.
Proof.
  intros Hlen. unfold initFromUrl, initialState. simpl.
  apply Nat.ltb_lt in Hlen. by rewrite Hlen.
Qed.

Lemma join_length_pos (l : list string) :
  l ≠ [] -> l ≠ [""] -> (0 < String.length (join "," l))%nat.
Proof.
  intros Hne Hne'. destruct l as [|x [|y l]]; [done| |].
  - simpl. destruct x; [done|simpl; lia].
  - rewrite join_cons by done. rewrite !append_length. simpl. lia.
Qed.

Lemma split_from_has_comma (cur s : string) :
  hasComma s = true -> (2 ≤ length (split_from "," cur s))%nat.
Proof.
  revert cur. induction s as [|c s IH]; intros cur Hs; [done|].
  rewrite hasComma_cons in Hs. simpl.
  destruct (Ascii.eqb_spec c ",") as [->|Hne].
  - pose proof (split_from_nonempty "," "" s) as Hnil.
    destruct (split_from "," "" s); [done|simpl; lia].
  - apply IH. apply orb_true_iff in Hs as [Hc|Hs]; [|done].
    apply Ascii.eqb_eq in Hc. by subst c.
Qed.

(** X2. Loading the page with the parameter written for a selection seeds
    that same selection, provided no selected name contains a comma and
    the selection is not the single empty name.  The single empty name is
    written as an empty value, which seeds nothing; a name with a comma
    comes back as two or more names. *)
Theorem selection_survives_reload :
  (∀ selected,
     Forall (fun x => hasComma x = false) selected ->
     selected ≠ [""] ->
     selectedCategories (initFromUrl (initialState (categoriesParam selected)))
     = selected)
  ∧ selectedCategories (initFromUrl (initialState (categoriesParam [""]))) = []
  ∧ (∀ name, hasComma name = true ->
       (2 ≤ length (selectedCategories
                      (initFromUrl (initialState (categoriesParam [name])))))%nat).
Proof.
  split; [|split].
  - intros selected Hall Hne. destruct selected as [|x l]; [reflexivity|].
    change (categoriesParam (x :: l)) with (Some (join "," (x :: l))).
    rewrite seeded_selection by (by apply join_length_pos).
    by apply split_join.
  - reflexivity.
  - intros name Hc. change (categoriesParam [name]) with (Some name).
    rewrite seeded_selection by (destruct name; [done|simpl; lia]).
    by apply split_from_has_comma.
Qed.

Lemma selection_survives_reload_witness :
  Forall (fun x => hasComma x = false) ["Tech"; "Life"]
  ∧ ["Tech"; "Life"] ≠ [""]
  ∧ selectedCategories
      (initFromUrl (initialState (categoriesParam ["Tech"; "Life"])))
    = ["Tech"; "Life"].
Proof.
  assert (H1 : Forall (fun x => hasComma x = false) ["Tech"; "Life"])
    by (repeat constructor).
  assert (H2 : ["Tech"; "Life"] ≠ [""]) by discriminate.
  split; [exact H1|]. split; [exact H2|].
  exact (proj1 selection_survives_reload ["Tech"; "Life"] H1 H2).
Defined.

(** ** What the handlers leave alone *)

Lemma step_frame (st : AppState) (a : Action) :
  allPosts (step st a) = allPosts st
  ∧ categories (step st a) = categories st
  ∧ loading (step st a) = loading st.
Proof. by destruct a. Qed.

Lemma step_settled (st : AppState) (a : Action) : settled (step st a).
Proof. by destruct a. Qed.

Lemma step_page (st : AppState) (a : Action) :
  currentPage (step st a)
  = match a with LoadMore => (currentPage st + 1)%nat | _ => 1%nat end.
Proof. by destruct a. Qed.

(** X3. No sequence of toggle, clear and load-more actions changes the
    fetched posts, the aggregated categories or the loading flag; the page
    number never drops below 1; and after every action the displayed posts
    are the page of the filtered posts for the current selection and page
    number. *)
Theorem actions_keep_fetched_data (st : AppState) (actions : list Action) :
  allPosts (run st actions) = allPosts st
  ∧ categories (run st actions) = categories st
  ∧ loading (run st actions) = loading st
  ∧ ((1 ≤ currentPage st)%nat -> (1 ≤ currentPage (run st actions))%nat)
  ∧ (settled st ∨ actions ≠ [] -> settled (run st actions)).
Proof.
  revert st. induction actions as [|a actions IH]; intros st; simpl.
  - repeat split; try done. intros [H|H]; done.
  - destruct (IH (step st a)) as (Hposts & Hcats & Hload & Hpage & Hset).
    destruct (step_frame st a) as (Hp & Hc & Hl).
    rewrite Hposts, Hcats, Hload, Hp, Hc, Hl. repeat split.
    + intros Hge. apply Hpage. rewrite step_page. destruct a; lia.
    + intros _. apply Hset. left. apply step_settled.
Qed.

Lemma actions_keep_fetched_data_witness :
  let st := filterAndPaginatePosts
              (mkApp scenarioPosts [] [] [] false 1 None) in
  (1 ≤ currentPage st)%nat
  ∧ (1 ≤ currentPage (run st [LoadMore; Toggle "Tech"; Clear]))%nat
  ∧ settled (run st [LoadMore; Toggle "Tech"; Clear]).
Proof.
  intros st.
  destruct (actions_keep_fetched_data st [LoadMore; Toggle "Tech"; Clear])
    as (_ & _ & _ & Hpage & Hset).
  assert (H1 : (1 ≤ currentPage st)%nat) by (simpl; lia).
  split; [exact H1|]. split; [exact (Hpage H1)|].
  apply Hset. right. discriminate.
Defined.

(** ** Load more *)

Lemma run_allPosts (actions : list Action) (st : AppState) :
  allPosts (run st actions) = allPosts st.
Proof.
  revert st. induction actions as [|a actions IH]; intros st; simpl; [done|].
  rewrite IH. by destruct a.
Qed.

Lemma run_settled (actions : list Action) (st : AppState) :
  settled st -> settled (run st actions).
Proof.
  revert st. induction actions as [|a actions IH]; intros st Hset; simpl; [done|].
  apply IH, step_settled.
Qed.

Lemma run_load_more (k : nat) (st : AppState) :
  selectedCategories (run st (replicate k LoadMore)) = selectedCategories st
  ∧ searchParams (run st (replicate k LoadMore)) = searchParams st
  ∧ currentPage (run st (replicate k LoadMore)) = (currentPage st + k)%nat.
Proof.
  revert st. induction k as [|k IH]; intros st; simpl.
  - repeat split. lia.
  - destruct (IH (step st LoadMore)) as (Hs & Hu & Hp).
    rewrite Hs, Hu, Hp. simpl. repeat split. lia.
Qed.

(** X4. Pressing "load more" [k] times on a page that is up to date leaves
    the selection and the URL parameter alone, adds [k] to the page number,
    and shows the first [6 * (page + k)] filtered posts: what was displayed
    before stays at the front, and once that many posts cover the filtered
    list, all of it is displayed. *)
Theorem load_more_extends_page (st : AppState) (k : nat) :
  settled st ->
  let st' := run st (replicate k LoadMore) in
  let filtered := filterPosts (allPosts st) (selectedCategories st) in
  selectedCategories st' = selectedCategories st
  ∧ searchParams st' = searchParams st
  ∧ currentPage st' = (currentPage st + k)%nat
  ∧ displayedPosts st' = take ((currentPage st + k) * POSTS_PER_PAGE) filtered
  ∧ displayedPosts st `prefix_of` displayedPosts st'
  ∧ ((length filtered ≤ (currentPage st + k) * POSTS_PER_PAGE)%nat ->
     displayedPosts st' = filtered).
Proof.
  intros Hset st' filtered.
  destruct (run_load_more k st) as (Hs & Hu & Hp).
  pose proof (run_allPosts (replicate k LoadMore) st) as Hposts.
  pose proof (run_settled (replicate k LoadMore) st Hset) as Hset'.
  unfold settled in Hset'.
  fold st' in Hs, Hu, Hp, Hposts, Hset'.
  rewrite Hs, Hp, Hposts in Hset'. fold filtered in Hset'.
  rewrite paginate_take in Hset'.
  split; [done|]. split; [done|]. split; [done|]. split; [done|]. split.
  - rewrite Hset'. unfold settled in Hset. rewrite Hset, paginate_take.
    fold filtered.
    replace (currentPage st * POSTS_PER_PAGE)%nat
      with ((currentPage st * POSTS_PER_PAGE)
              `min` ((currentPage st + k) * POSTS_PER_PAGE))%nat by lia.
    rewrite <- take_take. apply prefix_take.
  - intros Hlen. rewrite Hset'. by apply take_ge.
Qed.

Lemma load_more_extends_page_witness :
  let st := filterAndPaginatePosts
              (mkApp sevenTechPosts [] [] [] false 1 None) in
  settled st
  ∧ length (displayedPosts st) = 6%nat
  ∧ displayedPosts (run st (replicate 1 LoadMore)) = sevenTechPosts.
Proof.
  intros st.
  assert (Hset : settled st) by reflexivity.
  split; [exact Hset|]. split; [reflexivity|].
  destruct (load_more_extends_page st 1 Hset) as (_ & _ & _ & _ & _ & Hall).
  apply Hall. simpl. lia.
Defined.

(** ** Where the "has more" flag is right *)

Lemma matchesById_names (selected : list string) (posts : list Post.t) :
  idsAreNames posts ->
  List.filter (matchesById selected) posts
  = List.filter (matchesByName selected) posts.
Proof.
  intros Hids. induction posts as [|p posts IH]; simpl; [done|].
  assert (Hp : matchesById selected p = matchesByName selected p).
  { unfold matchesById, matchesByName, some.
    assert (Hcs : ∀ c, c ∈ Post.categories p -> Category.id c = Category.name c).
    { intros c Hc. apply (Hids p c); [constructor|done]. }
    induction (Post.categories p) as [|c cs IHc]; simpl; [done|].
    rewrite (Hcs c) by constructor.
    f_equal. apply IHc. intros c' Hc'. apply Hcs. by constructor. }
  rewrite Hp, IH; [done|].
  intros q c Hq Hc. apply (Hids q c); [by constructor|done].
Qed.

Lemma filteredPostsCount_by_name (posts : list Post.t) (selected : list string) :
  selected = [] ∨ idsAreNames posts ->
  filteredPostsCount posts selected = length (filterPosts posts selected).
Proof.
  unfold filteredPostsCount, filterPosts.
  destruct selected as [|x l]; [done|]. simpl.
  intros [H|H]; [done|]. by rewrite matchesById_names.
Qed.

(** X5. When nothing is selected, or when every category of every post
    uses its name as identifier, the flag is true exactly when fewer posts
    are displayed than match the filter; and on an up-to-date page the flag
    is false exactly when all matching posts are displayed. *)
Theorem hasMore_right_when_ids_are_names (st : AppState) :
  selectedCategories st = [] ∨ idsAreNames (allPosts st) ->
  let filtered := filterPosts (allPosts st) (selectedCategories st) in
  (hasMorePosts st = true <-> (length (displayedPosts st) < length filtered)%nat)
  ∧ (settled st -> (hasMorePosts st = false <-> displayedPosts st = filtered)).
Proof.
  intros Hcase filtered. unfold hasMorePosts, getFilteredPostsCount.
  rewrite (filteredPostsCount_by_name _ _ Hcase). fold filtered.
  split; [apply Nat.ltb_lt|].
  intros Hset. unfold settled in Hset. fold filtered in Hset.
  rewrite paginate_take in Hset. rewrite Nat.ltb_ge, Hset.
  split.
  - intros Hlen. rewrite length_take in Hlen. apply take_ge. lia.
  - intros Heq. rewrite Heq. lia.
Qed.

Lemma hasMore_right_when_ids_are_names_witness :
  let st := filterAndPaginatePosts
              (mkApp sevenTechPosts [] [] [] false 1 None) in
  (selectedCategories st = [] ∨ idsAreNames (allPosts st))
  ∧ hasMorePosts st = true
  ∧ (length (displayedPosts st)
     < length (filterPosts (allPosts st) (selectedCategories st)))%nat.
Proof.
  intros st.
  assert (Hcase : selectedCategories st = [] ∨ idsAreNames (allPosts st))
    by (by left).
  split; [exact Hcase|]. split; [reflexivity|].
  apply (proj1 (hasMore_right_when_ids_are_names st Hcase)). reflexivity.
Defined.

(** ** More about the filter *)

Lemma matchesByName_mono (selected selected' : list string) (p : Post.t) :
  (∀ x, x ∈ selected -> x ∈ selected') ->
  matchesByName selected p = true -> matchesByName selected' p = true.
Proof.
  intros Hsub. rewrite !matchesByName_selects.
  intros (c & Hc & Hn). exists c. split; [done|]. by apply Hsub.
Qed.

Lemma list_filter_sublist_mono {A} (f g : A -> bool) (l : list A) :
  (∀ x, f x = true -> g x = true) ->
  sublist (List.filter f l) (List.filter g l).
Proof.
  intros Hfg. induction l as [|x l IH]; simpl; [constructor|].
  destruct (f x) eqn:Hf.
  - rewrite (Hfg x Hf). by constructor.
  - destruct (g x); [by constructor|done].
Qed.

Lemma list_filter_ext_bool {A} (f g : A -> bool) (l : list A) :
  (∀ x, f x = g x) -> List.filter f l = List.filter g l.
Proof.
  intros Hfg. induction l as [|x l IH]; simpl; [done|].
  rewrite Hfg, IH. done.
Qed.

(** X6. Once something is selected, selecting more never hides a post: if
    every name of a non-empty selection is also in a second selection, the
    posts kept for the first are kept, in order, for the second.  Starting
    from the empty selection it is the other way round, since the empty
    selection shows everything. *)
Theorem wider_selection_keeps_posts (posts : list Post.t)
    (selected selected' : list string) :
  (∀ x, x ∈ selected -> x ∈ selected') ->
  (selected ≠ [] ->
   sublist (filterPosts posts selected) (filterPosts posts selected'))
  ∧ sublist (filterPosts posts selected') (filterPosts posts []).
Proof.
  intros Hsub. split.
  - intros Hne.
    assert (Hne' : selected' ≠ []).
    { destruct selected as [|x l]; [done|].
      intros Heq. specialize (Hsub x). rewrite Heq in Hsub.
      eapply elem_of_nil, Hsub. constructor. }
    unfold filterPosts.
    apply length_pos_nonempty in Hne, Hne'. rewrite Hne, Hne'.
    apply list_filter_sublist_mono. intros p. by apply matchesByName_mono.
  - unfold filterPosts. simpl.
    destruct (0 <? length selected')%nat; [apply list_filter_sublist|done].
Qed.

Lemma wider_selection_keeps_posts_witness :
  (∀ x, x ∈ ["Tech"] -> x ∈ ["Tech"; "Life"])
  ∧ ["Tech"] ≠ []
  ∧ sublist (filterPosts scenarioPosts ["Tech"])
            (filterPosts scenarioPosts ["Tech"; "Life"]).
Proof.
  assert (Hsub : ∀ x, x ∈ ["Tech"] -> x ∈ ["Tech"; "Life"]).
  { intros x Hx. apply list_elem_of_singleton in Hx. subst x. constructor. }
  assert (Hne : ["Tech"] ≠ []) by discriminate.
  split; [exact Hsub|]. split; [exact Hne|].
  exact (proj1 (wider_selection_keeps_posts scenarioPosts _ _ Hsub) Hne).
Defined.

Lemma filterPosts_sameMembers (posts : list Post.t) (a b : list string) :
  sameMembers a b -> filterPosts posts a = filterPosts posts b.
Proof.
  intros Hab. unfold filterPosts.
  destruct a as [|x a], b as [|y b]; simpl.
  - done.
  - exfalso. eapply elem_of_nil, Hab. constructor.
  - exfalso. eapply elem_of_nil, Hab. constructor.
  - apply list_filter_ext_bool. intros p.
    destruct (matchesByName (x :: a) p) eqn:Ha.
    + symmetry. eapply matchesByName_mono; [|exact Ha]. intros z. apply Hab.
    + destruct (matchesByName (y :: b) p) eqn:Hb; [|done].
      rewrite <- Ha. eapply matchesByName_mono; [|exact Hb]. intros z. apply Hab.
Qed.

(** X7. The filter only looks at which names are selected, not at their
    order or repetition.  So toggling a name twice, although it may reorder
    the selection and the URL parameter, shows again the first page of the
    very posts that were filtered before. *)
Theorem toggle_twice_same_posts (st : AppState) (name : string) :
  (∀ a b, sameMembers a b ->
          filterPosts (allPosts st) a = filterPosts (allPosts st) b)
  ∧ displayedPosts (run st [Toggle name; Toggle name])
    = paginate (filterPosts (allPosts st) (selectedCategories st))
               POSTS_PER_PAGE 1.
Proof.
  split; [apply filterPosts_sameMembers|].
  simpl. f_equal. apply filterPosts_sameMembers.
  intros x. destruct (decide (name ∈ selectedCategories st)) as [Hin|Hnot].
  - rewrite toggled_twice_present by done.
    rewrite elem_of_app, remove_name_elem_of, list_elem_of_singleton.
    split; [intros [[Hx _]| ->]; done|].
    intros Hx. destruct (decide (x = name)); [by right|by left].
  - by rewrite toggled_twice_absent.
Qed.

Lemma toggle_twice_same_posts_witness :
  let st := filterAndPaginatePosts
              (mkApp scenarioPosts [] [] ["Tech"; "Life"] false 1 None) in
  sameMembers ["Tech"; "Life"] ["Life"; "Tech"]
  ∧ filterPosts (allPosts st) ["Tech"; "Life"]
    = filterPosts (allPosts st) ["Life"; "Tech"]
  ∧ displayedPosts (run st [Toggle "Tech"; Toggle "Tech"]) = scenarioPosts.
Proof.
  intros st.
  assert (Hsame : sameMembers ["Tech"; "Life"] ["Life"; "Tech"]).
  { intros x. rewrite !elem_of_cons, !elem_of_nil. tauto. }
  destruct (toggle_twice_same_posts st "Tech") as [Hmem Hshown].
  split; [exact Hsame|]. split; [exact (Hmem _ _ Hsame)|].
  rewrite Hshown. reflexivity.
Defined.

(** ** The post list *)

Lemma list_filter_none {A} (f : A -> bool) (l : list A) :
  (∀ x, x ∈ l -> f x = false) -> List.filter f l = [].
Proof.
  intros Hnone. induction l as [|x l IH]; simpl; [done|].
  rewrite (Hnone x) by constructor. apply IH.
  intros y Hy. apply Hnone. by constructor.
Qed.

(** X8. The post list always renders exactly one of its three sections:
    the grid whenever there are posts (with the "load more" button exactly
    when the flag is set), otherwise the spinner while loading and the
    "no posts found" section when not.  In particular, when a non-empty
    selection matches no post the up-to-date page displays nothing and,
    once loading is over, shows the empty section whatever the flag says. *)
Theorem PostList_one_section :
  (∀ posts loading hasMore,
     PostList posts loading hasMore
     = match posts with
       | [] => [if loading then LoadingSection else EmptySection]
       | _ :: _ => [GridSection posts hasMore]
       end)
  ∧ (∀ st,
       settled st ->
       selectedCategories st ≠ [] ->
       (∀ p, p ∈ allPosts st -> ¬ selects (selectedCategories st) p) ->
       displayedPosts st = []
       ∧ (loading st = false -> appPostList st = [EmptySection])).
Proof.
  split.
  - intros [|p posts] [] hasMore; reflexivity.
  - intros st Hset Hne Hnone.
    assert (Hshown : displayedPosts st = []).
    { unfold settled in Hset. rewrite Hset, paginate_take. unfold filterPosts.
      apply length_pos_nonempty in Hne. rewrite Hne.
      rewrite list_filter_none; [by rewrite take_nil|].
      intros p Hp. specialize (Hnone p Hp).
      rewrite <- matchesByName_selects in Hnone.
      by destruct (matchesByName (selectedCategories st) p). }
    split; [exact Hshown|].
    intros Hload. unfold appPostList. by rewrite Hshown, Hload.
Qed.

Lemma PostList_one_section_witness :
  let st := filterAndPaginatePosts
              (mkApp scenarioPosts [] [] ["Art"] false 1 (Some "Art")) in
  settled st
  ∧ selectedCategories st ≠ []
  ∧ (∀ p, p ∈ allPosts st -> ¬ selects (selectedCategories st) p)
  ∧ appPostList st = [EmptySection].
Proof.
  intros st.
  assert (Hset : settled st) by reflexivity.
  assert (Hne : selectedCategories st ≠ []) by discriminate.
  assert (Hnone : ∀ p, p ∈ allPosts st -> ¬ selects (selectedCategories st) p).
  { intros p Hp Hsel. apply matchesByName_selects in Hsel.
    simpl in Hp. unfold scenarioPosts in Hp.
    repeat (apply elem_of_cons in Hp as [->|Hp]; [discriminate|]).
    by apply elem_of_nil in Hp. }
  split; [exact Hset|]. split; [exact Hne|]. split; [exact Hnone|].
  destruct (proj2 PostList_one_section st Hset Hne Hnone) as [_ Hempty].
  by apply Hempty.
Defined.

(** ** The category filter *)

Lemma includes_toggled (selected : list string) (x y : string) :
  includes (toggled selected x) y
  = if String.eqb y x then negb (includes selected x) else includes selected y.
Proof.
  apply Bool.eq_true_iff_eq.
  destruct (String.eqb_spec y x) as [->|Hne].
  - rewrite negb_true_iff, includes_true, includes_false.
    destruct (decide (x ∈ selected)) as [Hin|Hnot].
    + rewrite toggled_present by done. rewrite remove_name_elem_of. intuition congruence.
    + rewrite toggled_absent by done. rewrite elem_of_app, list_elem_of_singleton.
      intuition congruence.
  - rewrite !includes_true.
    destruct (decide (x ∈ selected)) as [Hin|Hnot].
    + rewrite toggled_present by done. rewrite remove_name_elem_of. intuition congruence.
    + rewrite toggled_absent by done. rewrite elem_of_app, list_elem_of_singleton.
      intuition congruence.
Qed.

(** X9. Ticking or unticking a checkbox flips the checked state of the rows
    that pass the same identifier to the handler and leaves every other row
    as it was; the rows themselves, their labels and counts do not change.
    After "Clear All" no row is checked and the button is gone. *)
Theorem checkbox_flips_its_row (st : AppState) :
  (∀ x,
     filterItems (appCategoryFilter (step st (Toggle x)))
     = map (fun it =>
              if String.eqb (itemOnChange it) x
              then mkItem (itemKey it) (itemLabel it) (itemCount it)
                          (negb (itemChecked it)) (itemOnChange it)
              else it)
           (filterItems (appCategoryFilter st)))
  ∧ clearButton (appCategoryFilter (step st Clear)) = false
  ∧ Forall (fun it => itemChecked it = false)
           (filterItems (appCategoryFilter (step st Clear))).
Proof.
  split; [|split].
  - intros x. unfold appCategoryFilter, CategoryFilter. simpl.
    rewrite map_map. apply map_ext. intros category. simpl.
    rewrite includes_toggled.
    destruct (String.eqb_spec (CategoryWithCount.id category) x) as [->|_]; done.
  - reflexivity.
  - unfold appCategoryFilter, CategoryFilter. simpl.
    apply Forall_forall. intros it Hit.
    apply list_elem_of_In, in_map_iff in Hit as (category & <- & _). reflexivity.
Qed.

(** *** The rows for the fetched categories *)

Lemma uniqueCategories_names (localeCompare : string -> string -> Z)
    (posts : list Post.t) :
  NoDup (CategoryWithCount.name <$> uniqueCategories localeCompare posts)
  ∧ (∀ k, k ∈ CategoryWithCount.name <$> uniqueCategories localeCompare posts
          <-> k ∈ Category.name <$> categoryOccurrences posts).
Proof.
  pose proof (buildCategoryMap_Aggregates posts) as Hagg.
  split; [|intros k];
    rewrite (uniqueCategories_Permutation localeCompare posts),
            (Aggregates_names _ _ Hagg).
  - apply (agg_keys_NoDup _ _ Hagg).
  - apply (agg_keys _ _ Hagg).
Qed.

Lemma uniqueCategories_Summarises (localeCompare : string -> string -> Z)
    (posts : list Post.t) (e : CategoryWithCount.t) :
  e ∈ uniqueCategories localeCompare posts ->
  Summarises (categoryOccurrences posts) (CategoryWithCount.name e) e.
Proof.
  intros He. rewrite uniqueCategories_Permutation in He.
  exact (Aggregates_values _ _ _ (buildCategoryMap_Aggregates posts) He).
Qed.

(** X10. For the categories stored by a fetch, the filter shows one row per
    category name occurring in the posts; the rows have distinct React
    keys; each row's key and the identifier it passes to the handler are
    its label, the category name; and a row is checked exactly when its
    label is selected.  The "Clear All" button is there exactly when the
    selection is not empty, even if it selects no row. *)
Theorem filter_rows_of_fetched_categories
    (localeCompare : string -> string -> Z) (posts : list Post.t)
    (selected : list string) :
  let view := CategoryFilter (uniqueCategories localeCompare posts) selected in
  NoDup (itemKey <$> filterItems view)
  ∧ (∀ k, k ∈ itemLabel <$> filterItems view
          <-> k ∈ Category.name <$> categoryOccurrences posts)
  ∧ Forall (fun it =>
              itemKey it = itemLabel it
              ∧ itemOnChange it = itemLabel it
              ∧ (itemChecked it = true <-> itemLabel it ∈ selected))
           (filterItems view)
  ∧ (clearButton view = true <-> selected ≠ []).
Proof.
  intros view. subst view. unfold CategoryFilter. simpl.
  destruct (uniqueCategories_names localeCompare posts) as [Hnd Hkeys].
  set (cats := uniqueCategories localeCompare posts) in *.
  assert (Hid : ∀ e, e ∈ cats -> CategoryWithCount.id e = CategoryWithCount.name e).
  { intros e He.
    destruct (uniqueCategories_Summarises localeCompare posts e He) as [Hi _ _ _ _].
    exact Hi. }
  split; [|split; [|split]].
  - change (NoDup (map itemKey (map (fun category =>
              mkItem (CategoryWithCount.id category)
                     (CategoryWithCount.name category)
                     (CategoryWithCount.count category)
                     (includes selected (CategoryWithCount.id category))
                     (CategoryWithCount.id category)) cats))).
    rewrite map_map. simpl.
    rewrite (map_ext_in _ CategoryWithCount.name); [exact Hnd|].
    intros e He. apply Hid. by apply list_elem_of_In.
  - intros k. rewrite <- Hkeys.
    change (k ∈ map itemLabel (map (fun category =>
              mkItem (CategoryWithCount.id category)
                     (CategoryWithCount.name category)
                     (CategoryWithCount.count category)
                     (includes selected (CategoryWithCount.id category))
                     (CategoryWithCount.id category)) cats)
            <-> k ∈ map CategoryWithCount.name cats).
    by rewrite map_map.
  - apply Forall_forall. intros it Hit.
    apply list_elem_of_In, in_map_iff in Hit as (e & <- & He). simpl.
    apply list_elem_of_In in He. rewrite (Hid e He).
    split; [done|]. split; [done|]. apply includes_true.
  - apply length_pos_nonempty.
Qed.

(** *** The count on a row and the posts the row filters *)

Lemma matchesByName_single (k : string) (p : Post.t) :
  ((if matchesByName [k] p then 1 else 0)
   ≤ length (occurrencesNamed k (Post.categories p)))%nat
  ∧ (NoDup (Category.name <$> Post.categories p) ->
     length (occurrencesNamed k (Post.categories p))
     = if matchesByName [k] p then 1%nat else 0%nat).
Proof.
  unfold matchesByName, some, occurrencesNamed, includes.
  induction (Post.categories p) as [|c cs [IHle IHeq]]; simpl; [done|].
  rewrite orb_false_r.
  destruct (String.eqb_spec (Category.name c) k) as [Heq|Hne]; simpl.
  - split; [lia|]. intros Hnd. apply NoDup_cons in Hnd as [Hfresh _].
    f_equal. apply length_zero_iff_nil, list_filter_none.
    intros c' Hc'. apply String.eqb_neq. intros Heq'.
    apply Hfresh, list_elem_of_fmap. exists c'. split; [congruence|done].
  - split; [exact IHle|]. intros Hnd. apply NoDup_cons in Hnd as [_ Hnd].
    by apply IHeq.
Qed.

Lemma named_posts_le_occurrences (k : string) (posts : list Post.t) :
  (length (List.filter (matchesByName [k]) posts)
   ≤ length (occurrencesNamed k (categoryOccurrences posts)))%nat
  ∧ (Forall (fun p => NoDup (Category.name <$> Post.categories p)) posts ->
     length (List.filter (matchesByName [k]) posts)
     = length (occurrencesNamed k (categoryOccurrences posts))).
Proof.
  unfold categoryOccurrences, occurrencesNamed.
  induction posts as [|p posts [IHle IHeq]]; simpl; [done|].
  rewrite List.filter_app, length_app.
  destruct (matchesByName_single k p) as [Hle Heq].
  unfold occurrencesNamed in Hle, Heq. split.
  - destruct (matchesByName [k] p); simpl; lia.
  - intros Hall. apply Forall_cons in Hall as [Hp Hall].
    rewrite (Heq Hp), <- (IHeq Hall).
    destruct (matchesByName [k] p); simpl; lia.
Qed.

(** X11. The count shown on a category's row is at least the number of
    posts that selecting that category alone displays, and equals it when
    no post lists the same category name twice. *)
Theorem row_count_bounds_filtered_posts
    (localeCompare : string -> string -> Z) (posts : list Post.t)
    (e : CategoryWithCount.t) :
  e ∈ uniqueCategories localeCompare posts ->
  (length (filterPosts posts [CategoryWithCount.name e])
   ≤ CategoryWithCount.count e)%nat
  ∧ (Forall (fun p => NoDup (Category.name <$> Post.categories p)) posts ->
     length (filterPosts posts [CategoryWithCount.name e])
     = CategoryWithCount.count e).
Proof.
  intros He.
  destruct (uniqueCategories_Summarises localeCompare posts e He)
    as [_ _ _ _ Hcount].
  rewrite Hcount. apply named_posts_le_occurrences.
Qed.

Lemma row_count_bounds_filtered_posts_witness :
  let e := CategoryWithCount.mk "Tech" "Tech" ["a"; "b"] 2 in
  e ∈ uniqueCategories byteCompare scenarioPosts
  ∧ Forall (fun p => NoDup (Category.name <$> Post.categories p)) scenarioPosts
  ∧ length (filterPosts scenarioPosts [CategoryWithCount.name e])
    = CategoryWithCount.count e.
Proof.
  intros e.
  assert (He : e ∈ uniqueCategories byteCompare scenarioPosts).
  { change (uniqueCategories byteCompare scenarioPosts)
      with [CategoryWithCount.mk "Life" "Life" ["c"] 1; e].
    apply elem_of_cons. right. constructor. }
  assert (Hnd : Forall (fun p => NoDup (Category.name <$> Post.categories p))
                       scenarioPosts).
  { repeat constructor; simpl; by intros H%elem_of_nil. }
  split; [exact He|]. split; [exact Hnd|].
  exact (proj2 (row_count_bounds_filtered_posts byteCompare scenarioPosts e He) Hnd).
Defined.

(** *** The order of the posts in the payload *)

Lemma list_filter_Permutation {A} (f : A -> bool) (l k : list A) :
  l ≡ₚ k -> List.filter f l ≡ₚ List.filter f k.
Proof.
  induction 1 as [|x l k _ IH|x y l|l k m _ IH1 _ IH2]; simpl.
  - done.
  - destruct (f x); [by constructor|done].
  - destruct (f x), (f y); try done. apply Permutation_swap.
  - by etransitivity.
Qed.

Lemma Summarises_Permutation seen seen' k e :
  seen ≡ₚ seen' -> Summarises seen k e -> Summarises seen' k e.
Proof.
  intros Hperm [Hid Hname Hnd Hids Hcount]. split; try done.
  - intros i. by rewrite Hids, Hperm.
  - rewrite Hcount. unfold occurrencesNamed.
    apply Permutation_length. by apply list_filter_Permutation.
Qed.

(** X12. The aggregated categories do not depend on the order in which
    the payload lists the posts, except for the order of the recorded
    identifiers: each record has a counterpart, for the reordered posts,
    with the same name, the same [id], the same count and the same
    identifiers. *)
Theorem aggregation_ignores_post_order
    (localeCompare : string -> string -> Z) (posts posts' : list Post.t) :
  posts ≡ₚ posts' ->
  ∀ e, e ∈ uniqueCategories localeCompare posts ->
       ∃ e', e' ∈ uniqueCategories localeCompare posts'
             ∧ CategoryWithCount.name e' = CategoryWithCount.name e
             ∧ CategoryWithCount.id e' = CategoryWithCount.id e
             ∧ CategoryWithCount.count e' = CategoryWithCount.count e
             ∧ CategoryWithCount.ids e' ≡ₚ CategoryWithCount.ids e.
Proof.
  intros Hperm e He.
  assert (Hoccs : categoryOccurrences posts ≡ₚ categoryOccurrences posts').
  { unfold categoryOccurrences. by apply Permutation_flat_map. }
  pose proof (uniqueCategories_Summarises localeCompare posts e He) as Hsum.
  assert (Hk : CategoryWithCount.name e
               ∈ CategoryWithCount.name <$> uniqueCategories localeCompare posts').
  { apply (proj2 (uniqueCategories_names localeCompare posts')).
    rewrite <- Hoccs.
    apply (proj2 (uniqueCategories_names localeCompare posts)).
    apply list_elem_of_fmap. by exists e. }
  apply list_elem_of_fmap in Hk as (e' & Hname & He').
  exists e'. split; [exact He'|].
  pose proof (uniqueCategories_Summarises localeCompare posts' e' He') as Hsum'.
  rewrite <- Hname in Hsum'.
  apply (Summarises_Permutation _ _ _ _ Hoccs) in Hsum.
  destruct Hsum as [Hid _ Hnd Hids Hcount].
  destruct Hsum' as [Hid' _ Hnd' Hids' Hcount'].
  split; [done|]. split; [congruence|]. split; [congruence|].
  apply NoDup_Permutation; [done|done|].
  intros i. by rewrite Hids, Hids'.
Qed.

Lemma aggregation_ignores_post_order_witness :
  let e := CategoryWithCount.mk "Tech" "Tech" ["a"; "b"] 2 in
  scenarioPosts ≡ₚ reverse scenarioPosts
  ∧ e ∈ uniqueCategories byteCompare scenarioPosts
  ∧ ∃ e', e' ∈ uniqueCategories byteCompare (reverse scenarioPosts)
          ∧ CategoryWithCount.count e' = 2%nat
          ∧ CategoryWithCount.ids e' ≡ₚ ["a"; "b"].
Proof.
  intros e.
  assert (Hperm : scenarioPosts ≡ₚ reverse scenarioPosts)
    by (symmetry; apply reverse_Permutation).
  assert (He : e ∈ uniqueCategories byteCompare scenarioPosts).
  { change (uniqueCategories byteCompare scenarioPosts)
      with [CategoryWithCount.mk "Life" "Life" ["c"] 1; e].
    apply elem_of_cons. right. constructor. }
  split; [exact Hperm|]. split; [exact He|].
  destruct (aggregation_ignores_post_order byteCompare _ _ Hperm e He)
    as (e' & He' & _ & _ & Hcount & Hids).
  exists e'. split; [exact He'|]. split; [exact Hcount|exact Hids].
Defined.

(** ** More about the detail view *)

Lemma find_first (posts : list Post.t) (id : string) (p : Post.t) :
  List.find (fun q => String.eqb (Post.id q) id) posts = Some p ->
  Post.id p = id
  ∧ ∃ earlier later, posts = earlier ++ p :: later
                     ∧ ∀ q, q ∈ earlier -> Post.id q ≠ id.
Proof.
  induction posts as [|q posts IH]; simpl; [done|].
  destruct (String.eqb_spec (Post.id q) id) as [Heq|Hne].
  - intros [= ->]. split; [done|]. exists [], posts. split; [done|].
    intros q Hq. by apply elem_of_nil in Hq.
  - intros Hfind. destruct (IH Hfind) as (Hid & earlier & later & -> & Hfirst).
    split; [done|]. exists (q :: earlier), later. split; [done|].
    intros q' Hq'. apply elem_of_cons in Hq' as [->|Hq']; [done|by apply Hfirst].
Qed.

Lemma find_present_id (posts : list Post.t) (id : string) :
  (∃ q, q ∈ posts ∧ Post.id q = id) ->
  ∃ p, List.find (fun q => String.eqb (Post.id q) id) posts = Some p.
Proof.
  intros (q & Hq & Hid).
  destruct (List.find _ posts) as [p|] eqn:Hfind; [by exists p|].
  apply list_elem_of_In in Hq.
  pose proof (find_none _ _ Hfind q Hq) as Hno. simpl in Hno.
  apply String.eqb_neq in Hno. done.
Qed.

(** X13. When the collection arrives and holds a post with the requested
    identifier, the effect returns normally and the component shows a post
    with that identifier: the first one in the collection, if several share
    it, with the button back to "/". *)
Theorem known_post_renders_first_match
    (data : ApiResponse.t) (id : string) (w : World DetailState) :
  (∃ q, q ∈ ApiResponse.posts data ∧ Post.id q = id) ->
  ∃ p earlier later,
    fst (fetchPost (Succeeds data) id w) = Returned tt
    ∧ PostDetail (state (snd (fetchPost (Succeeds data) id w))) = PostView p "/"
    ∧ Post.id p = id
    ∧ ApiResponse.posts data = earlier ++ p :: later
    ∧ (∀ q, q ∈ earlier -> Post.id q ≠ id).
Proof.
  intros Hex. destruct (find_present_id _ _ Hex) as [p Hfind].
  destruct (find_first _ _ _ Hfind) as (Hid & earlier & later & Hsplit & Hfirst).
  exists p, earlier, later.
  unfold fetchPost, try_catch, mbind, M_bind, fetch, json, modify. simpl.
  rewrite Hfind. unfold PostDetail. simpl. done.
Qed.

Lemma known_post_renders_first_match_witness :
  (∃ q, q ∈ scenarioPosts ∧ Post.id q = "2")
  ∧ ∃ p, PostDetail
           (state (snd (fetchPost (Succeeds (ApiResponse.mk scenarioPosts)) "2"
                          (mkWorld initialDetail [] []))))
         = PostView p "/"
         ∧ Post.id p = "2".
Proof.
  assert (Hex : ∃ q, q ∈ ApiResponse.posts (ApiResponse.mk scenarioPosts)
                     ∧ Post.id q = "2").
  { exists (mkPost "2" [Category.mk "b" "Tech"]). split; [|reflexivity].
    simpl. unfold scenarioPosts. apply elem_of_cons. right. constructor. }
  split; [exact Hex|].
  destruct (known_post_renders_first_match (ApiResponse.mk scenarioPosts) "2"
              (mkWorld initialDetail [] []) Hex)
    as (p & _ & _ & _ & Hview & Hid & _).
  exists p. split; [exact Hview|exact Hid].
Defined.

(** X14. When the request or the parsing fails, the detail effect returns
    normally after one request and one console line, with loading cleared
    and the stored post untouched.  On the first load the component
    therefore shows "not found"; if a post had been loaded before, for
    another identifier, that post stays on screen. *)
Theorem failed_detail_fetch_keeps_post
    (f : FetchFailure) (id : string) (w : World DetailState) :
  let '(result, w') := fetchPost (Fails f) id w in
  result = Returned tt
  ∧ detailLoading (state w') = false
  ∧ post (state w') = post (state w)
  ∧ requests w' = requests w ++ ["/api/posts"]
  ∧ console w' = console w ++ ["Error fetching post:"]
  ∧ PostDetail (state w')
    = match post (state w) with
      | None => NotFoundView "/"
      | Some p => PostView p "/"
      end.
Proof. destruct f; simpl; repeat split. Qed.

(** ** Fetch completion and the other state changes *)

(** X15. Whatever the outcome, [fetchPosts] leaves the selection, the page
    number, the URL parameter and the displayed posts alone.  It therefore
    commutes with seeding the selection from the URL, and an action taken
    while the request is pending leads, once the effect has run, to the
    state reached by taking the action after the response. *)
Theorem fetch_commutes_with_selection
    (localeCompare : string -> string -> Z) (server : FetchOutcome)
    (w : World AppState) :
  let fetched st := state (snd (fetchPosts localeCompare server (withState w st))) in
  selectedCategories (fetched (state w)) = selectedCategories (state w)
  ∧ currentPage (fetched (state w)) = currentPage (state w)
  ∧ searchParams (fetched (state w)) = searchParams (state w)
  ∧ displayedPosts (fetched (state w)) = displayedPosts (state w)
  ∧ fetched (initFromUrl (state w)) = initFromUrl (fetched (state w))
  ∧ (∀ a, filterAndPaginatePosts (fetched (step (state w) a))
          = step (fetched (state w)) a).
Proof.
  destruct w as [st reqs out]. simpl.
  destruct server as [[]|data]; simpl; repeat split;
    try (intros a; destruct a; reflexivity);
    unfold initFromUrl; simpl;
    destruct (searchParams st) as [s|]; try reflexivity;
    destruct (0 <? String.length s)%nat; reflexivity.
Qed.

(** ** Unticking every box *)

Lemma toggled_head (x : string) (l : list string) :
  x ∉ l -> toggled (x :: l) x = l.
Proof.
  intros Hx. rewrite toggled_present by constructor. simpl.
  rewrite String.eqb_refl. simpl. by apply remove_name_absent.
Qed.

Lemma step_clear_after_step (st : AppState) (a : Action) :
  step (step st a) Clear = step st Clear.
Proof. by destruct a. Qed.

Lemma step_toggle_last (st : AppState) (x : string) :
  selectedCategories st = [x] -> step st (Toggle x) = step st Clear.
Proof.
  intros Hsel. unfold step, handleCategoryToggle, handleClearFilters.
  rewrite Hsel, toggled_head by apply not_elem_of_nil. reflexivity.
Qed.

(** X16. When the selection has no repeated name and is not empty,
    unticking the selected names one after the other, in the order of the
    selection, ends in the very state that "Clear All" gives.  With a
    repeated name (possible only from the URL) it does not: the second
    toggle of the name selects it again. *)
Theorem untick_all_is_clear :
  (∀ st, NoDup (selectedCategories st) -> selectedCategories st ≠ [] ->
         run st (Toggle <$> selectedCategories st) = step st Clear)
  ∧ (let st := initFromUrl (initialState (Some "a,a")) in
     selectedCategories (run st (Toggle <$> selectedCategories st)) = ["a"]).
Proof.
  split; [|reflexivity].
  intros st Hnd Hne.
  remember (selectedCategories st) as sel eqn:Hsel.
  revert st Hsel. induction sel as [|x l IH]; intros st Hsel; [done|].
  apply NoDup_cons in Hnd as [Hx Hnd]. simpl.
  destruct l as [|y l].
  - simpl. apply step_toggle_last. by rewrite <- Hsel.
  - rewrite (IH Hnd) by first
      [ done
      | simpl; rewrite <- Hsel; symmetry; by apply toggled_head ].
    apply step_clear_after_step.
Qed.

Lemma untick_all_is_clear_witness :
  let st := run (filterAndPaginatePosts
                   (mkApp scenarioPosts [] [] [] false 1 None))
                [Toggle "Tech"; Toggle "Life"; LoadMore] in
  NoDup (selectedCategories st)
  ∧ selectedCategories st ≠ []
  ∧ run st (Toggle <$> selectedCategories st) = step st Clear.
Proof.
  intros st.
  assert (Hnd : NoDup (selectedCategories st)).
  { apply run_NoDup. constructor. }
  assert (Hne : selectedCategories st ≠ []) by discriminate.
  split; [exact Hnd|]. split; [exact Hne|].
  exact (proj1 untick_all_is_clear st Hnd Hne).
Defined.
